(** * advanced-frontend-logger: a shallow embedding of [src/log.ts]

    The logger of [log.ts] is a process-wide object with a queue of log
    entries, a configuration and a deferred drain.  This development embeds
    its data and methods as Rocq definitions, threads the state of the
    JavaScript host explicitly (the logger object, the pending zero-delay
    timers, and what the transports and the console have observed), and
    states the properties of the specification over that embedding.

    Conventions.
    - A JavaScript string is a [string]; a code unit is an [ascii], so only
      code units below 256 are represented.
    - A value of type [any] is a small tree of JavaScript values.
    - A statement that may throw returns a [Completion]. *)

From Stdlib Require Import List String Ascii Bool Arith ZArith Lia.
Import ListNotations.
Open Scope string_scope.
Open Scope nat_scope.
Open Scope list_scope.

Set Implicit Arguments.

(** ** JavaScript values and completions *)

(** Values of TypeScript's [any], as far as the logger handles them: they are
    stored and forwarded, never inspected. *)
#[warnings="-register-all"]
Inductive any : Type :=
| JUndefined
| JBool (b : bool)
| JNum (n : Z)
| JStr (s : string)
| JObj (fields : list (string * any)).

(** The outcome of running a statement: it returns normally, it throws a
    value, or the model ran out of fuel before the statement finished (only
    loops can do that). In all cases where a state exists it is kept: a throw
    does not undo the effects before it. *)
Inductive Completion (A : Type) : Type :=
| Normal (a : A)
| Throw (e : any) (a : A)
| OutOfFuel.
Arguments OutOfFuel {A}.

(** ** The data model of [log.ts] *)

(** [type LogLevel = 'debug' | 'info' | 'warn' | 'error'] *)
Inductive LogLevel : Type := debug | info | warn | error.

(** The string a [LogLevel] is at run time. *)
Definition LogLevel_name (l : LogLevel) : string :=
  match l with
  | debug => "debug"
  | info => "info"
  | warn => "warn"
  | error => "error"
  end.

(** [interface LogMeta] *)
Record LogMeta : Type := {
  timestamp : string;
  callerInfo : string;
  optionalParams : list any
}.

(** What the host shows a log call: [process.env.NODE_ENV], the [Date]
    that [new Date()] builds, and the value of
    [new Error().stack?.split('\n')]. *)
Record Date : Type := {
  toLocaleString : string;
  toISOString : string
}.

Inductive StackCapture : Type :=
| StackUndefined                 (* [error.stack] is undefined *)
| StackText (text : string)      (* [error.stack] is this string *)
| StackFaulty (e : any).         (* reading or splitting it throws [e] *)

Record Host : Type := {
  NODE_ENV : option string;
  now : Date;
  errorStack : StackCapture
}.

(** One call of a public logging method, with what the host shows it. *)
Record LogCall : Type := {
  call_level : LogLevel;
  call_host : Host;
  call_message : string;
  call_params : list any
}.

(** What a user-supplied transport does when its [log] is called: it may call
    the logger's public methods again (in this order), and then it either
    returns or throws. A transport of the model does not write to its
    arguments and does not reconfigure the logger. *)
Record Outcome : Type := {
  relog : list LogCall;
  raises : option any
}.

(** [interface Transport], with its two kinds of implementation: the
    [ConsoleTransport] of [log.ts] and sinks written by the user, which carry
    a name and their behaviour. *)
Inductive Transport : Type :=
| ConsoleTransport
| CustomTransport (name : nat) (behaviour : LogLevel -> string -> LogMeta -> Outcome).

(** [interface LoggerConfig]. The field [logLevel] is typed [LogLevel] in the
    source, but [getInstance] stores [process.env.LOG_LEVEL] in it through an
    unchecked cast, so at run time it is an arbitrary string. *)
Record LoggerConfig : Type := {
  logLevel : string;
  enableTimestamps : bool;
  enableCallerInfo : bool;
  enableColors : bool;
  transports : list Transport;
  humanReadableTimestamp : bool
}.

(** [Partial<LoggerConfig>]: [None] is a key that is not in the object. A key
    that is present holds a value of the field's type. *)
Record PartialConfig : Type := {
  p_logLevel : option string;
  p_enableTimestamps : option bool;
  p_enableCallerInfo : option bool;
  p_enableColors : option bool;
  p_transports : option (list Transport);
  p_humanReadableTimestamp : option bool
}.

(** An element of [logQueue]. *)
Record QueueEntry : Type := {
  level : LogLevel;
  message : string;
  meta : LogMeta
}.

(** The instance fields of [class Log]. *)
Record Log : Type := {
  config : LoggerConfig;
  logQueue : list QueueEntry;
  isProcessing : bool
}.

(** One call of some transport's [log]. *)
Record Invocation : Type := {
  target : Transport;
  inv_level : LogLevel;
  inv_message : string;
  inv_meta : LogMeta
}.

(** One call of [console.log] or [console.error], with its arguments. *)
Inductive ConsoleRecord : Type :=
| ConsoleLog (format colorStyle reset : string) (rest : list any)
| ConsoleError (text : string) (e : any).

(** The state of the program: the logger object, the number of pending
    [setTimeout(() => this.processQueue(), 0)] callbacks, every transport
    call and console write so far (oldest first), and the exceptions that
    reached the event loop. *)
Record World : Type := {
  this : Log;
  timers : nat;
  calls : list Invocation;
  console : list ConsoleRecord;
  uncaught : list any
}.

(** ** Strings *)

Definition newline : ascii := ascii_of_nat 10.

(** [s.split('\n')], on the characters of [s]: [cur] is the piece being
    read, reversed. *)
Fixpoint split_lines (s : list ascii) (cur : list ascii) : list (list ascii) :=
  match s with
  | [] => [rev cur]
  | c :: s' =>
      if Ascii.eqb c newline then rev cur :: split_lines s' []
      else split_lines s' (c :: cur)
  end.

Definition split_newline (s : string) : list string :=
  map string_of_list_ascii (split_lines (list_ascii_of_string s) []).

(** White space and line terminators below code unit 256: tab, line feed,
    vertical tab, form feed, carriage return, space, no-break space. *)
Definition is_space (c : ascii) : bool :=
  let n := nat_of_ascii c in
  ((9 <=? n) && (n <=? 13)) || (n =? 32) || (n =? 160).

Definition is_digit (c : ascii) : bool :=
  let n := nat_of_ascii c in (48 <=? n) && (n <=? 57).

(** What [.] matches: anything but a line terminator. *)
Definition is_dot (c : ascii) : bool :=
  let n := nat_of_ascii c in negb ((n =? 10) || (n =? 13)).

Fixpoint drop_spaces (s : list ascii) : list ascii :=
  match s with
  | c :: s' => if is_space c then drop_spaces s' else s
  | [] => []
  end.

(** [s.trim()] *)
Definition trim (s : string) : string :=
  string_of_list_ascii
    (rev (drop_spaces (rev (drop_spaces (list_ascii_of_string s))))).

(** [s.toUpperCase()] on the letters a to z. *)
Definition upper (c : ascii) : ascii :=
  let n := nat_of_ascii c in
  if (97 <=? n) && (n <=? 122) then ascii_of_nat (n - 32) else c.

Fixpoint toUpperCase (s : string) : string :=
  match s with
  | EmptyString => EmptyString
  | String c s' => String (upper c) (toUpperCase s')
  end.

(** ** The two regular expressions of [getCallerInfo] *)

Inductive CharClass : Type :=
| Dot                   (* [.] *)
| Space                 (* [\s] *)
| Digit                 (* [\d] *)
| Lit (c : ascii).

Definition accepts (k : CharClass) (c : ascii) : bool :=
  match k with
  | Dot => is_dot c
  | Space => is_space c
  | Digit => is_digit c
  | Lit d => Ascii.eqb c d
  end.

(** A pattern is a sequence of: one character of a class, a greedy star of a
    class, and the two ends of a capture group. [x+] is written [x x*]. *)
Inductive Node : Type :=
| One (k : CharClass)
| Star (k : CharClass)
| Open
| Close.

(** Backtracking match of [r] at the start of [s]. [opened] is the input as
    it was when the current group opened; [caps] holds the groups closed so
    far, last first. A star takes as many characters as it can and gives them
    back one at a time while the rest of the pattern fails. *)
Fixpoint matchHere (r : list Node) (s opened : list ascii)
    (caps : list (list ascii)) : option (list (list ascii)) :=
  match r with
  | [] => Some (rev caps)
  | One k :: r' =>
      match s with
      | c :: s' => if accepts k c then matchHere r' s' opened caps else None
      | [] => None
      end
  | Star k :: r' =>
      (fix star (s : list ascii) : option (list (list ascii)) :=
         match s with
         | c :: s' =>
             if accepts k c then
               match star s' with
               | Some m => Some m
               | None => matchHere r' s opened caps
               end
             else matchHere r' s opened caps
         | [] => matchHere r' [] opened caps
         end) s
  | Open :: r' => matchHere r' s s caps
  | Close :: r' =>
      matchHere r' s opened
        (firstn (List.length opened - List.length s) opened :: caps)
  end.

(** [s.match(r)] for a pattern without flags: the leftmost match, as the
    list of its groups [match[1]], [match[2]], ... *)
Fixpoint search (r : list Node) (s : list ascii) : option (list (list ascii)) :=
  match matchHere r s s [] with
  | Some m => Some m
  | None =>
      match s with
      | [] => None
      | _ :: s' => search r s'
      end
  end.

Definition String_match (s : string) (r : list Node) : option (list string) :=
  option_map (map string_of_list_ascii) (search r (list_ascii_of_string s)).

Definition lit (s : string) : list Node :=
  map (fun c => One (Lit c)) (list_ascii_of_string s).

Definition plus (k : CharClass) : list Node := [One k; Star k].

Definition group (r : list Node) : list Node := Open :: r ++ [Close].

(** The first expression of line 99, written here with blanks between its
    parts:  at \s+ ( .* ) \s+ \( ( .* ) : ( \d+ ) : ( \d+ ) \)  *)
Definition re_named_frame : list Node :=
  lit "at" ++ plus Space ++ group [Star Dot] ++ plus Space ++ lit "("
    ++ group [Star Dot] ++ lit ":" ++ group (plus Digit) ++ lit ":"
    ++ group (plus Digit) ++ lit ")".

(** The second expression, of line 100:  at \s+ ( .* ) : ( \d+ ) : ( \d+ )  *)
Definition re_bare_frame : list Node :=
  lit "at" ++ plus Space ++ group [Star Dot] ++ lit ":"
    ++ group (plus Digit) ++ lit ":" ++ group (plus Digit).

(** ** Class [Log] *)

(** String concatenation, as in a template literal. *)
Infix "+++" := String.append (right associativity, at level 60).

(** The result of a [try] block. *)
Inductive Try (A : Type) : Type :=
| Returned (a : A)
| Raised (e : any).
Arguments Raised {A}.

(** What a method hands back to its caller. *)
Inductive ReturnValue : Type :=
| ReturnsThis        (* [return this] *)
| ReturnsVoid.

(** [Log.logLevels[k]]: the four own keys of the table. Any other key reads
    [undefined] or a member of [Object.prototype], none of which converts to
    a number: that is [None]. *)
Definition logLevels (k : string) : option Z :=
  if String.eqb k "debug" then Some 0%Z
  else if String.eqb k "info" then Some 1%Z
  else if String.eqb k "warn" then Some 2%Z
  else if String.eqb k "error" then Some 3%Z
  else None.

(** [a >= b] on such values: false as soon as one side is not a number. *)
Definition js_ge (a b : option Z) : bool :=
  match a, b with
  | Some x, Some y => (y <=? x)%Z
  | _, _ => false
  end.

(** [x || 'debug'] for [x = process.env.LOG_LEVEL]: [undefined] and the empty
    string are the falsy values of that type. *)
Definition or_debug (x : option string) : string :=
  match x with
  | None => "debug"
  | Some s => if String.eqb s "" then "debug" else s
  end.

(** The object built by [new Log({...})] in [getInstance]. *)
Definition new_Log (LOG_LEVEL : option string) : Log :=
  {| config :=
       {| logLevel := or_debug LOG_LEVEL;
          enableTimestamps := true;
          enableCallerInfo := true;
          enableColors := true;
          transports := [ConsoleTransport];
          humanReadableTimestamp := true |};
     logQueue := [];
     isProcessing := false |}.

(** [Log.getInstance()]: [instance] is the static field [Log.instance]
    before the call; the result is the instance and the field after it. *)
Definition getInstance (LOG_LEVEL : option string) (instance : option Log)
  : Log * option Log :=
  match instance with
  | Some l => (l, Some l)
  | None => let l := new_Log LOG_LEVEL in (l, Some l)
  end.

(** The program state once the module is loaded:
    [const Logger = Log.getInstance()] runs with no instance yet. *)
Definition boot (LOG_LEVEL : option string) : World :=
  {| this := fst (getInstance LOG_LEVEL None);
     timers := 0;
     calls := [];
     console := [];
     uncaught := [] |}.

Definition set_this (l : Log) (w : World) : World :=
  {| this := l; timers := timers w; calls := calls w;
     console := console w; uncaught := uncaught w |}.

Definition set_config (c : LoggerConfig) (l : Log) : Log :=
  {| config := c; logQueue := logQueue l; isProcessing := isProcessing l |}.

Definition set_logQueue (q : list QueueEntry) (l : Log) : Log :=
  {| config := config l; logQueue := q; isProcessing := isProcessing l |}.

Definition set_isProcessing (b : bool) (l : Log) : Log :=
  {| config := config l; logQueue := logQueue l; isProcessing := b |}.

Definition over {A : Type} (o : option A) (current : A) : A :=
  match o with
  | Some v => v
  | None => current
  end.

(** [{ ...c, ...options }] *)
Definition spread (c : LoggerConfig) (options : PartialConfig) : LoggerConfig :=
  {| logLevel := over (p_logLevel options) (logLevel c);
     enableTimestamps := over (p_enableTimestamps options) (enableTimestamps c);
     enableCallerInfo := over (p_enableCallerInfo options) (enableCallerInfo c);
     enableColors := over (p_enableColors options) (enableColors c);
     transports := over (p_transports options) (transports c);
     humanReadableTimestamp :=
       over (p_humanReadableTimestamp options) (humanReadableTimestamp c) |}.

Definition configure (options : PartialConfig) (w : World) : World :=
  set_this (set_config (spread (config (this w)) options) (this w)) w.

(** [this.config.transports.push(transport)]. The list is a value here: an
    array that the application keeps a reference to after passing it to
    [configure] is not followed. [addTransport_in_place] has the array as
    an object, and [contents] relates the two. *)
Definition push_transport (t : Transport) (c : LoggerConfig) : LoggerConfig :=
  {| logLevel := logLevel c;
     enableTimestamps := enableTimestamps c;
     enableCallerInfo := enableCallerInfo c;
     enableColors := enableColors c;
     transports := transports c ++ [t];
     humanReadableTimestamp := humanReadableTimestamp c |}.

Definition addTransport (t : Transport) (w : World) : World :=
  set_this (set_config (push_transport t (config (this w))) (this w)) w.

Definition is_production (env : option string) : bool :=
  match env with
  | Some s => String.eqb s "production"
  | None => false
  end.

Definition shouldLog (h : Host) (l : Log) (level : LogLevel) : bool :=
  if is_production (NODE_ENV h) then false
  else js_ge (logLevels (LogLevel_name level)) (logLevels (logLevel (config l))).

(** [match[i]] *)
Definition grp (m : list string) (i : nat) : string := nth (i - 1) m "".

(** The body of the [try] block of [getCallerInfo]: [Returned (Some s)] is
    the [return] inside it, [Returned None] is falling out of the block. *)
Definition getCallerInfo_try (captured : StackCapture) : Try (option string) :=
  match captured with
  | StackFaulty e => Raised e
  | StackUndefined => Returned None
  | StackText text =>
      let stack := split_newline text in
      if 3 <? List.length stack then
        let callerStackLine := nth 3 stack "" in
        let found :=
          match String_match callerStackLine re_named_frame with
          | Some m => Some m
          | None => String_match callerStackLine re_bare_frame
          end in
        match found with
        | Some m =>
            let functionName := trim (grp m 1) in
            let filePath := grp m 2 in
            let lineNumber := grp m 3 in
            Returned
              (Some (functionName +++ " (" +++ filePath +++ ":" +++ lineNumber +++ ")"))
        | None => Returned None
        end
      else Returned None
  end.

(** [getCallerInfo()]: the string it returns and what it writes with
    [console.error]. *)
Definition getCallerInfo (l : Log) (h : Host) : string * list ConsoleRecord :=
  if negb (enableCallerInfo (config l)) then ("caller info disabled", [])
  else
    match getCallerInfo_try (errorStack h) with
    | Returned (Some s) => (s, [])
    | Returned None => ("unknown", [])
    | Raised e => ("unknown", [ConsoleError "Error getting caller info" e])
    end.

Definition getTimestamp (l : Log) (h : Host) : string :=
  if negb (enableTimestamps (config l)) then "timestamp disabled"
  else if humanReadableTimestamp (config l) then toLocaleString (now h)
  else toISOString (now h).

Definition enqueueLog (h : Host) (lvl : LogLevel) (msg : string)
    (params : list any) (w : World) : World :=
  let stamp := getTimestamp (this w) h in
  let (caller, written) := getCallerInfo (this w) h in
  let entry :=
    {| level := lvl;
       message := msg;
       meta := {| timestamp := stamp; callerInfo := caller;
                  optionalParams := params |} |} in
  {| this := set_logQueue (logQueue (this w) ++ [entry]) (this w);
     timers := S (timers w);
     calls := calls w;
     console := console w ++ written;
     uncaught := uncaught w |}.

(** The common body of the four public methods. *)
Definition log_method (lvl : LogLevel) (h : Host) (msg : string)
    (params : list any) (w : World) : ReturnValue * World :=
  if shouldLog h (this w) lvl then (ReturnsThis, enqueueLog h lvl msg params w)
  else (ReturnsThis, w).

Module Logger.
Definition debug := log_method debug.
Definition info := log_method info.
Definition warn := log_method warn.
Definition error := log_method error.
End Logger.

(** A call of the public method of its level. *)
Definition perform (c : LogCall) (w : World) : ReturnValue * World :=
  match call_level c with
  | debug => Logger.debug (call_host c) (call_message c) (call_params c) w
  | info => Logger.info (call_host c) (call_message c) (call_params c) w
  | warn => Logger.warn (call_host c) (call_message c) (call_params c) w
  | error => Logger.error (call_host c) (call_message c) (call_params c) w
  end.

(** ** Transports and the drain *)

Definition colorStyles (lvl : LogLevel) : string :=
  match lvl with
  | debug => "color: gray;"
  | info => "color: blue;"
  | warn => "color: orange;"
  | error => "color: red;"
  end.

Definition nl : string := String newline EmptyString.

(** [ConsoleTransport.log]: the arguments of its [console.log]. The colour
    switch is read from the logger as it is when the transport runs. *)
Definition ConsoleTransport_log (lvl : LogLevel) (msg : string) (m : LogMeta)
    (w : World) : ConsoleRecord :=
  let levelStr := toUpperCase (LogLevel_name lvl) in
  let colorStyle :=
    if enableColors (config (this w)) then colorStyles lvl else "" in
  ConsoleLog
    ("%c" +++ levelStr +++ "%c [" +++ timestamp m +++ "] [" +++ callerInfo m
       +++ "]:" +++ nl +++ nl +++ msg)
    colorStyle "color: default;" (optionalParams m).

Definition record_call (i : Invocation) (w : World) : World :=
  {| this := this w; timers := timers w; calls := calls w ++ [i];
     console := console w; uncaught := uncaught w |}.

Definition write_console (r : ConsoleRecord) (w : World) : World :=
  {| this := this w; timers := timers w; calls := calls w;
     console := console w ++ [r]; uncaught := uncaught w |}.

(** [transport.log(level, message, meta)] *)
Definition Transport_log (t : Transport) (e : QueueEntry) (w : World)
  : Completion World :=
  let w := record_call {| target := t; inv_level := level e;
                          inv_message := message e; inv_meta := meta e |} w in
  match t with
  | ConsoleTransport =>
      Normal (write_console (ConsoleTransport_log (level e) (message e) (meta e) w) w)
  | CustomTransport _ behaviour =>
      let o := behaviour (level e) (message e) (meta e) in
      let w := fold_left (fun w c => snd (perform c w)) (relog o) w in
      match raises o with
      | Some x => Throw x w
      | None => Normal w
      end
  end.

(** [ts.forEach((transport) => transport.log(level, message, meta))] *)
Fixpoint forEach_log (ts : list Transport) (e : QueueEntry) (w : World)
  : Completion World :=
  match ts with
  | [] => Normal w
  | t :: ts' =>
      match Transport_log t e w with
      | Normal w' => forEach_log ts' e w'
      | stopped => stopped
      end
  end.

(** The [while] loop of [processQueue], for at most [fuel] iterations. *)
Fixpoint drain (fuel : nat) (w : World) : Completion World :=
  match logQueue (this w) with
  | [] => Normal w
  | logEntry :: rest =>
      match fuel with
      | 0 => OutOfFuel
      | S fuel' =>
          let w := set_this (set_logQueue rest (this w)) w in
          match forEach_log (transports (config (this w))) logEntry w with
          | Normal w' => drain fuel' w'
          | stopped => stopped
          end
      end
  end.

Definition processQueue (fuel : nat) (w : World) : Completion World :=
  if isProcessing (this w) then Normal w
  else
    match drain fuel (set_this (set_isProcessing true (this w)) w) with
    | Normal w' => Normal (set_this (set_isProcessing false (this w')) w')
    | stopped => stopped
    end.

(** One turn of the event loop on a timer: nothing when none is pending;
    otherwise the oldest callback runs, and what it throws is reported by the
    host and goes no further (a browser; the program goes on). [None] is a
    drain that did not end within [fuel] iterations. *)
Definition tick (fuel : nat) (w : World) : option World :=
  match timers w with
  | 0 => Some w
  | S n =>
      let w := {| this := this w; timers := n; calls := calls w;
                  console := console w; uncaught := uncaught w |} in
      match processQueue fuel w with
      | Normal w' => Some w'
      | Throw x w' =>
          Some {| this := this w'; timers := timers w'; calls := calls w';
                  console := console w'; uncaught := uncaught w' ++ [x] |}
      | OutOfFuel => None
      end
  end.

(** ** Programs: what the application and the event loop do, in order *)

Inductive Op : Type :=
| Call (c : LogCall)               (* [Logger.<level>(message, ...params)] *)
| Configure (options : PartialConfig)
| AddTransport (t : Transport)
| Tick.                            (* the event loop runs a pending timer *)

Definition step (fuel : nat) (o : Op) (w : World) : option World :=
  match o with
  | Call c => Some (snd (perform c w))
  | Configure options => Some (configure options w)
  | AddTransport t => Some (addTransport t w)
  | Tick => tick fuel w
  end.

Fixpoint run (fuel : nat) (ops : list Op) (w : World) : option World :=
  match ops with
  | [] => Some w
  | o :: ops' =>
      match step fuel o w with
      | Some w' => run fuel ops' w'
      | None => None
      end
  end.

(** ** Vocabulary of the properties *)

(** The rank of a level, as the table [logLevels] gives it. *)
Definition rank (l : LogLevel) : Z :=
  match l with
  | debug => 0
  | info => 1
  | warn => 2
  | error => 3
  end.

(** The four names the table knows. *)
Definition recognized (s : string) : bool :=
  match logLevels s with
  | Some _ => true
  | None => false
  end.

(** The entry [enqueueLog] builds for a call, on logger [l]. *)
Definition entry_of (l : Log) (c : LogCall) : QueueEntry :=
  {| level := call_level c;
     message := call_message c;
     meta := {| timestamp := getTimestamp l (call_host c);
                callerInfo := fst (getCallerInfo l (call_host c));
                optionalParams := call_params c |} |}.

Definition permitted (l : Log) (c : LogCall) : bool :=
  shouldLog (call_host c) l (call_level c).

(** The entries of the permitted calls among [cs], in the order of [cs]. *)
Definition accepted (l : Log) (cs : list LogCall) : list QueueEntry :=
  map (entry_of l) (filter (permitted l) cs).

(** The calls of the logging methods in a program. *)
Fixpoint log_calls (ops : list Op) : list LogCall :=
  match ops with
  | [] => []
  | Call c :: ops' => c :: log_calls ops'
  | _ :: ops' => log_calls ops'
  end.

Definition logs_and_ticks (ops : list Op) : Prop :=
  Forall (fun o => match o with Call _ | Tick => True | _ => False end) ops.

(** What the transports [ts] see of one entry: one call each, in the order
    of registration. *)
Definition fanout (ts : list Transport) (e : QueueEntry) : list Invocation :=
  map (fun t => {| target := t; inv_level := level e;
                   inv_message := message e; inv_meta := meta e |}) ts.

(** A transport that, on logger [l], never adds to the queue: each of the
    logging calls it makes is filtered out. *)
Definition never_enqueues (l : Log) (t : Transport) : Prop :=
  match t with
  | ConsoleTransport => True
  | CustomTransport _ behaviour =>
      forall lvl msg m,
        Forall (fun c => permitted l c = false) (relog (behaviour lvl msg m))
  end.

(** A transport whose [log] always returns. *)
Definition never_raises (t : Transport) : Prop :=
  match t with
  | ConsoleTransport => True
  | CustomTransport _ behaviour =>
      forall lvl msg m, raises (behaviour lvl msg m) = None
  end.

Definition well_behaved (l : Log) (t : Transport) : Prop :=
  never_enqueues l t /\ never_raises t.

(** No drain is running and every queued entry has a drain scheduled. *)
Definition idle (w : World) : Prop :=
  isProcessing (this w) = false /\
  (logQueue (this w) <> [] -> 0 < timers w).


(** The parts of the state a transport of the model leaves alone. *)
Definition keeps (w w' : World) : Prop :=
  this w' = this w /\ timers w' = timers w /\ uncaught w' = uncaught w.

(** What a public logging method of level [lvl] does within the call: it
    returns the logger, invokes no transport, leaves the configuration and
    the processing flag alone, and either changes nothing (the call is
    filtered out) or appends one entry and schedules one drain. *)
Definition chainable_and_deferred
    (method : Host -> string -> list any -> World -> ReturnValue * World)
    (lvl : LogLevel) : Prop :=
  forall (h : Host) (msg : string) (params : list any) (w : World),
    let c := {| call_level := lvl; call_host := h; call_message := msg;
                call_params := params |} in
    let w' := snd (method h msg params w) in
    fst (method h msg params w) = ReturnsThis /\
    calls w' = calls w /\
    uncaught w' = uncaught w /\
    config (this w') = config (this w) /\
    isProcessing (this w') = isProcessing (this w) /\
    ((permitted (this w) c = false /\ w' = w) \/
     (permitted (this w) c = true /\
      logQueue (this w') = logQueue (this w) ++ [entry_of (this w) c] /\
      timers w' = S (timers w) /\
      console w' = console w ++ snd (getCallerInfo (this w) h))).

(** A level name the environment may give: none, or one the table does not
    know. *)
Definition absent_or_unrecognized (raw : option string) : Prop :=
  match raw with
  | None => True
  | Some s => recognized s = false
  end.

(** The logger built at first access from the level name [raw] has the
    threshold "debug" and filters accordingly: outside production every call
    is permitted. *)
Definition falls_back_to_debug (raw : option string) : Prop :=
  let l := fst (getInstance raw None) in
  logLevel (config l) = "debug" /\
  forall (h : Host) (lvl : LogLevel),
    shouldLog h l lvl = negb (is_production (NODE_ENV h)).

(** What a program leaves to observe: the messages the transports got, the
    messages still queued, the processing flag, the pending timers and the
    exceptions that reached the event loop. *)
Definition summary (w : World)
  : list string * list string * bool * nat * list any :=
  (map inv_message (calls w), map message (logQueue (this w)),
   isProcessing (this w), timers w, uncaught w).

(** The processing flag after a statement is what it was before. *)
Definition flag_kept (w : World) (r : Completion World) : Prop :=
  match r with
  | Normal w' | Throw _ w' => isProcessing (this w') = isProcessing (this w)
  | OutOfFuel => True
  end.

(** What the two patterns make of one line of a stack: the caller
    description, or nothing when neither matches. *)
Definition describe_frame (line : string) : option string :=
  match String_match line re_named_frame with
  | Some m => Some (trim (grp m 1) +++ " (" +++ grp m 2 +++ ":" +++ grp m 3 +++ ")")
  | None =>
      match String_match line re_bare_frame with
      | Some m => Some (trim (grp m 1) +++ " (" +++ grp m 2 +++ ":" +++ grp m 3 +++ ")")
      | None => None
      end
  end.

(** The line of a stack text that [getCallerInfo] reads, when the text has
    it: the fourth, three below the first. *)
Definition caller_line (text : string) : option string :=
  nth_error (split_newline text) 3.

(** ** Sample hosts, transports and programs *)

(** A stack as V8 prints it: a header line, then one line per frame. *)
Definition v8_stack : string :=
  "Error" +++ nl
  +++ "    at Log.getCallerInfo (/app/src/log.ts:94:21)" +++ nl
  +++ "    at Log.enqueueLog (/app/src/log.ts:132:24)" +++ nl
  +++ "    at Log.info (/app/src/log.ts:167:12)" +++ nl
  +++ "    at main (/app/src/main.ts:7:10)".

Definition noon : Date :=
  {| toLocaleString := "3/15/2024, 2:30:45 PM";
     toISOString := "2024-03-15T14:30:45.123Z" |}.

Definition dev_host : Host :=
  {| NODE_ENV := Some "development"; now := noon; errorStack := StackText v8_stack |}.

Definition prod_host : Host :=
  {| NODE_ENV := Some "production"; now := noon; errorStack := StackText v8_stack |}.

Definition broken_stack_host : Host :=
  {| NODE_ENV := None; now := noon;
     errorStack := StackFaulty (JStr "stack.split is not a function") |}.

Definition say (lvl : LogLevel) (msg : string) (params : list any) : LogCall :=
  {| call_level := lvl; call_host := dev_host; call_message := msg;
     call_params := params |}.

(** A sink that only receives. *)
Definition recorder (n : nat) : Transport :=
  CustomTransport n (fun _ _ _ => {| relog := []; raises := None |}).

(** A sink whose [log] throws. *)
Definition failing (n : nat) : Transport :=
  CustomTransport n
    (fun _ _ _ => {| relog := []; raises := Some (JStr "sink down") |}).

(** A sink that logs what it receives again. *)
Definition echo (n : nat) : Transport :=
  CustomTransport n
    (fun lvl msg _ => {| relog := [say lvl msg []]; raises := None |}).

Definition only_transports (ts : list Transport) : PartialConfig :=
  {| p_logLevel := None; p_enableTimestamps := None;
     p_enableCallerInfo := None; p_enableColors := None;
     p_transports := Some ts; p_humanReadableTimestamp := None |}.

Definition only_logLevel (s : string) : PartialConfig :=
  {| p_logLevel := Some s; p_enableTimestamps := None;
     p_enableCallerInfo := None; p_enableColors := None;
     p_transports := None; p_humanReadableTimestamp := None |}.

Definition only_enableTimestamps (b : bool) : PartialConfig :=
  {| p_logLevel := None; p_enableTimestamps := Some b;
     p_enableCallerInfo := None; p_enableColors := None;
     p_transports := None; p_humanReadableTimestamp := None |}.

(** The logger after loading the module with no [LOG_LEVEL], then with the
    given transports. *)
Definition world_with (ts : list Transport) : World :=
  configure (only_transports ts) (boot None).

(** The extra values of the round-trip example: ["a", 1, {x:1}]. *)
Definition sample_params : list any :=
  [JStr "a"; JNum 1; JObj [("x", JNum 1)]].

(** A stack as Firefox prints it. *)
Definition firefox_stack : string :=
  "getCallerInfo@/app/src/log.ts:94:21" +++ nl
  +++ "enqueueLog@/app/src/log.ts:132:24" +++ nl
  +++ "info@/app/src/log.ts:167:12" +++ nl
  +++ "main@/app/src/main.ts:7:10".

Definition host_with_stack (s : StackCapture) : Host :=
  {| NODE_ENV := None; now := noon; errorStack := s |}.

(** ** Vocabulary of the further properties *)

(** The partial configuration with no key. *)
Definition no_options : PartialConfig :=
  {| p_logLevel := None; p_enableTimestamps := None;
     p_enableCallerInfo := None; p_enableColors := None;
     p_transports := None; p_humanReadableTimestamp := None |}.

Definition later_first {A : Type} (first second : option A) : option A :=
  match second with
  | Some v => Some v
  | None => first
  end.

(** [{ ...p, ...q }] on partial configurations: the keys of both, with the
    value of [q] where both have the key. *)
Definition merge_options (p q : PartialConfig) : PartialConfig :=
  {| p_logLevel := later_first (p_logLevel p) (p_logLevel q);
     p_enableTimestamps := later_first (p_enableTimestamps p) (p_enableTimestamps q);
     p_enableCallerInfo := later_first (p_enableCallerInfo p) (p_enableCallerInfo q);
     p_enableColors := later_first (p_enableColors p) (p_enableColors q);
     p_transports := later_first (p_transports p) (p_transports q);
     p_humanReadableTimestamp :=
       later_first (p_humanReadableTimestamp p) (p_humanReadableTimestamp q) |}.

Definition only_enableColors (b : bool) : PartialConfig :=
  {| p_logLevel := None; p_enableTimestamps := None;
     p_enableCallerInfo := None; p_enableColors := Some b;
     p_transports := None; p_humanReadableTimestamp := None |}.

Definition calls_only (ops : list Op) : Prop :=
  Forall (fun o => match o with Call _ => True | _ => False end) ops.

(** The configuration, the processing flag and the exceptions seen by the
    event loop are the same in both states. *)
Definition same_setup (w w' : World) : Prop :=
  config (this w') = config (this w) /\
  isProcessing (this w') = isProcessing (this w) /\
  uncaught w' = uncaught w.

(** The state a statement ends in, if it ends, satisfies [P]. *)
Definition ends_with (P : World -> Prop) (r : Completion World) : Prop :=
  match r with
  | Normal w' | Throw _ w' => P w'
  | OutOfFuel => True
  end.

(** A sink that answers a "ping" with a "pong" of the same level. *)
Definition bounce (n : nat) : Transport :=
  CustomTransport n
    (fun lvl msg _ =>
       {| relog := if String.eqb msg "ping" then [say lvl "pong" []] else [];
          raises := None |}).

(** What [ConsoleTransport] writes for an entry on logger [l]. *)
Definition console_record (l : Log) (e : QueueEntry) : ConsoleRecord :=
  ConsoleTransport_log (level e) (message e) (meta e)
    {| this := l; timers := 0; calls := []; console := []; uncaught := [] |}.

(** What the transports [ts] write to the console for an entry: one record
    for each [ConsoleTransport] among them. *)
Definition printed (l : Log) (ts : list Transport) (e : QueueEntry)
  : list ConsoleRecord :=
  flat_map (fun t => match t with
                     | ConsoleTransport => [console_record l e]
                     | CustomTransport _ _ => []
                     end) ts.


(** A string without a line feed. *)
Definition one_line (s : string) : Prop :=
  ~ In newline (list_ascii_of_string s).

(** A non-empty string of decimal digits. *)
Definition all_digits (s : string) : bool :=
  match list_ascii_of_string s with
  | [] => false
  | cs => forallb is_digit cs
  end.

(** The frames of a stack text as V8 prints it, the only format in which the
    lines start with "at": the lines after the header line. Frame 0 is the
    point of capture, frame [n] is [n] levels up from it. *)
Definition v8_frames (text : string) : list string := tl (split_newline text).

Definition frame_up (n : nat) (text : string) : option string :=
  nth_error (v8_frames text) n.

(** ** The transport array as an object *)

(** Lines 72 to 78 with the array of transports as the object it is: the
    field [transports] holds a reference to an array, [configure] stores the
    reference it is given, and [addTransport] pushes onto the array in
    place, so the application sees the push through its own reference. *)
Definition ArrayRef : Type := nat.

Record ConfigObject : Type := {
  o_logLevel : string;
  o_enableTimestamps : bool;
  o_enableCallerInfo : bool;
  o_enableColors : bool;
  o_transports : ArrayRef;
  o_humanReadableTimestamp : bool
}.

Record PartialObject : Type := {
  q_logLevel : option string;
  q_enableTimestamps : option bool;
  q_enableCallerInfo : option bool;
  q_enableColors : option bool;
  q_transports : option ArrayRef;
  q_humanReadableTimestamp : option bool
}.

(** The arrays of the program by reference, and [this.config]. *)
Record Memory : Type := {
  arrays : ArrayRef -> list Transport;
  held : ConfigObject
}.

(** [{ ...c, ...options }] on the objects: the reference is copied, not the
    array. *)
Definition spread_object (c : ConfigObject) (options : PartialObject) : ConfigObject :=
  {| o_logLevel := over (q_logLevel options) (o_logLevel c);
     o_enableTimestamps := over (q_enableTimestamps options) (o_enableTimestamps c);
     o_enableCallerInfo := over (q_enableCallerInfo options) (o_enableCallerInfo c);
     o_enableColors := over (q_enableColors options) (o_enableColors c);
     o_transports := over (q_transports options) (o_transports c);
     o_humanReadableTimestamp :=
       over (q_humanReadableTimestamp options) (o_humanReadableTimestamp c) |}.

Definition configure_in_place (options : PartialObject) (m : Memory) : Memory :=
  {| arrays := arrays m; held := spread_object (held m) options |}.

(** [a.push(t)] for the array at [r]. *)
Definition push (r : ArrayRef) (t : Transport) (h : ArrayRef -> list Transport)
  : ArrayRef -> list Transport :=
  fun r' => if Nat.eqb r' r then h r' ++ [t] else h r'.

Definition addTransport_in_place (t : Transport) (m : Memory) : Memory :=
  {| arrays := push (o_transports (held m)) t (arrays m); held := held m |}.

(** The configuration as the logger reads it: the array behind the
    reference. *)
Definition contents (m : Memory) : LoggerConfig :=
  {| logLevel := o_logLevel (held m);
     enableTimestamps := o_enableTimestamps (held m);
     enableCallerInfo := o_enableCallerInfo (held m);
     enableColors := o_enableColors (held m);
     transports := arrays m (o_transports (held m));
     humanReadableTimestamp := o_humanReadableTimestamp (held m) |}.

(** A partial object as [configure] reads it at the time of the call. *)
Definition read_options (h : ArrayRef -> list Transport) (p : PartialObject)
  : PartialConfig :=
  {| p_logLevel := q_logLevel p;
     p_enableTimestamps := q_enableTimestamps p;
     p_enableCallerInfo := q_enableCallerInfo p;
     p_enableColors := q_enableColors p;
     p_transports := option_map h (q_transports p);
     p_humanReadableTimestamp := q_humanReadableTimestamp p |}.

Definition only_array (r : ArrayRef) : PartialObject :=
  {| q_logLevel := None; q_enableTimestamps := None;
     q_enableCallerInfo := None; q_enableColors := None;
     q_transports := Some r; q_humanReadableTimestamp := None |}.

(** A program memory: array 0 holds the default transport and is the
    logger's, array 1 and array 2 are the application's. *)
Definition sample_memory : Memory :=
  {| arrays := fun r => match r with
                        | 0 => [ConsoleTransport]
                        | 1 => [recorder 1]
                        | 2 => [recorder 1]
                        | _ => []
                        end;
     held := {| o_logLevel := "debug"; o_enableTimestamps := true;
                o_enableCallerInfo := true; o_enableColors := true;
                o_transports := 0; o_humanReadableTimestamp := true |} |}.

(** The entries that the transports [ts] add to the queue while they are
    handed the entry [e], in the order they add them: the permitted ones
    among the logging calls each transport makes. *)
Definition spawned (l : Log) (ts : list Transport) (e : QueueEntry)
  : list QueueEntry :=
  flat_map (fun t => match t with
                     | ConsoleTransport => []
                     | CustomTransport _ behaviour =>
                         accepted l (relog (behaviour (level e) (message e) (meta e)))
                     end) ts.

(** The entries a drain hands to the transports, in order, when it starts
    on the queue [q] and runs for at most [fuel] iterations: the front entry,
    then the schedule of the rest of the queue extended by what the
    transports enqueue on that entry. *)
Fixpoint schedule (fuel : nat) (l : Log) (ts : list Transport)
    (q : list QueueEntry) : list QueueEntry :=
  match q with
  | [] => []
  | e :: rest =>
      match fuel with
      | 0 => []
      | S fuel' => e :: schedule fuel' l ts (rest ++ spawned l ts e)
      end
  end.



(** A list of characters that neither starts nor ends with white space. *)
Definition outer_clean (cs : list ascii) : bool :=
  match cs with
  | [] => true
  | c :: _ => negb (is_space c) && negb (is_space (last cs c))
  end.

(** [name] is [whole] without the white space at its two ends. *)
Definition stripped (whole name : string) : Prop :=
  exists before after : list ascii,
    list_ascii_of_string whole = before ++ list_ascii_of_string name ++ after /\
    forallb is_space before = true /\
    forallb is_space after = true /\
    outer_clean (list_ascii_of_string name) = true.

(** * Properties *)

Unset Implicit Arguments.

(** ** Gating *)

Lemma logLevels_name (l : LogLevel) :
  logLevels (LogLevel_name l) = Some (rank l).
Proof. destruct l; reflexivity. Qed.

Lemma shouldLog_config (h : Host) (l1 l2 : Log) (lvl : LogLevel) :
  config l1 = config l2 -> shouldLog h l1 lvl = shouldLog h l2 lvl.
Proof. unfold shouldLog. intros ->. reflexivity. Qed.

Lemma permitted_config (l1 l2 : Log) (c : LogCall) :
  config l1 = config l2 -> permitted l1 c = permitted l2 c.
Proof. unfold permitted. apply shouldLog_config. Qed.

Lemma perform_log_method (c : LogCall) (w : World) :
  perform c w =
  log_method (call_level c) (call_host c) (call_message c) (call_params c) w.
Proof. unfold perform. destruct (call_level c); reflexivity. Qed.

Lemma perform_gated (c : LogCall) (w : World) :
  permitted (this w) c = false -> perform c w = (ReturnsThis, w).
Proof.
  intros H. rewrite perform_log_method. unfold log_method.
  unfold permitted in H. rewrite H. reflexivity.
Qed.

Lemma enqueueLog_fields (h : Host) (lvl : LogLevel) (msg : string)
    (params : list any) (w : World) :
  let w' := enqueueLog h lvl msg params w in
  config (this w') = config (this w) /\
  isProcessing (this w') = isProcessing (this w) /\
  logQueue (this w') =
    logQueue (this w) ++
      [entry_of (this w)
         {| call_level := lvl; call_host := h; call_message := msg;
            call_params := params |}] /\
  timers w' = S (timers w) /\
  calls w' = calls w /\
  uncaught w' = uncaught w.
Proof.
  unfold enqueueLog, entry_of. cbn.
  destruct (getCallerInfo (this w) h) as [caller written]. cbn.
  repeat split.
Qed.

Lemma perform_permitted (c : LogCall) (w : World) :
  permitted (this w) c = true ->
  let w' := snd (perform c w) in
  config (this w') = config (this w) /\
  isProcessing (this w') = isProcessing (this w) /\
  logQueue (this w') = logQueue (this w) ++ [entry_of (this w) c] /\
  timers w' = S (timers w) /\
  calls w' = calls w /\
  uncaught w' = uncaught w.
Proof.
  intros H. rewrite perform_log_method. unfold log_method.
  unfold permitted in H. rewrite H. cbn.
  destruct c as [lvl h msg params]. apply enqueueLog_fields.
Qed.

Lemma relog_gated (cs : list LogCall) (w : World) :
  Forall (fun c => permitted (this w) c = false) cs ->
  fold_left (fun w c => snd (perform c w)) cs w = w.
Proof.
  induction 1 as [|c cs Hc _ IH]; cbn; [reflexivity|].
  rewrite (perform_gated c w Hc). exact IH.
Qed.

(** ** One entry, all transports *)

Lemma keeps_refl (w : World) : keeps w w.
Proof. repeat split. Qed.

Lemma keeps_trans (w1 w2 w3 : World) : keeps w1 w2 -> keeps w2 w3 -> keeps w1 w3.
Proof.
  intros (A1 & A2 & A3) (B1 & B2 & B3).
  repeat split; congruence.
Qed.

Lemma never_enqueues_config (l1 l2 : Log) (t : Transport) :
  config l1 = config l2 -> never_enqueues l1 t -> never_enqueues l2 t.
Proof.
  intros E. destruct t as [|n b]; cbn; [trivial|].
  intros H lvl msg m. specialize (H lvl msg m).
  eapply Forall_impl; [|exact H]. cbn. intros c Hc.
  rewrite <- Hc. symmetry. now apply permitted_config.
Qed.

Lemma Transport_log_calm (t : Transport) (e : QueueEntry) (w : World) :
  never_enqueues (this w) t ->
  exists w',
    (Transport_log t e w = Normal w' \/
     exists x, Transport_log t e w = Throw x w') /\
    keeps w w' /\ calls w' = calls w ++ fanout [t] e.
Proof.
  intros H. destruct t as [|n b]; cbn in *.
  - eexists. split; [left; reflexivity|]. repeat split.
  - specialize (H (level e) (message e) (meta e)).
    set (w1 := record_call _ w).
    assert (R : fold_left (fun w c => snd (perform c w))
                  (relog (b (level e) (message e) (meta e))) w1 = w1)
      by (apply relog_gated; exact H).
    unfold Transport_log. fold w1. cbv zeta. rewrite R.
    exists w1. split.
    + destruct (raises _) as [x|]; [right; exists x|left]; reflexivity.
    + repeat split.
Qed.

Lemma Transport_log_returns (t : Transport) (e : QueueEntry) (w : World) :
  well_behaved (this w) t ->
  exists w',
    Transport_log t e w = Normal w' /\
    keeps w w' /\ calls w' = calls w ++ fanout [t] e.
Proof.
  intros [Hq Hr].
  destruct (Transport_log_calm t e w Hq) as (w' & [E | [x E]] & K & C).
  - exists w'. auto.
  - exfalso. destruct t as [|n b]; cbn in *; [discriminate|].
    unfold Transport_log in E. cbv zeta in E.
    rewrite (Hr (level e) (message e) (meta e)) in E. discriminate.
Qed.

(** With transports that never enqueue, the fan-out of an entry reaches a
    prefix of the transports and changes nothing of the logger. *)
Lemma forEach_log_calm (ts : list Transport) (e : QueueEntry) (w : World) :
  Forall (never_enqueues (this w)) ts ->
  match forEach_log ts e w with
  | Normal w' => keeps w w' /\ calls w' = calls w ++ fanout ts e
  | Throw _ w' =>
      keeps w w' /\ exists n, calls w' = calls w ++ firstn n (fanout ts e)
  | OutOfFuel => False
  end.
Proof.
  revert w. induction ts as [|t ts IH]; intros w H; cbn.
  - split; [apply keeps_refl | now rewrite app_nil_r].
  - inversion H as [|? ? Ht Hts]; subst.
    destruct (Transport_log_calm t e w Ht) as (w1 & [E | [x E]] & K & C);
      rewrite E.
    + assert (Hts' : Forall (never_enqueues (this w1)) ts).
      { destruct K as (K1 & _). rewrite K1. exact Hts. }
      specialize (IH w1 Hts').
      destruct (forEach_log ts e w1) as [w2|x w2|]; [| |exact IH].
      * destruct IH as [K2 C2]. split; [eapply keeps_trans; eauto|].
        rewrite C2, C. cbn. now rewrite <- app_assoc.
      * destruct IH as [K2 [n C2]]. split; [eapply keeps_trans; eauto|].
        exists (S n). rewrite C2, C. cbn. now rewrite <- app_assoc.
    + split; [exact K|]. exists 1. rewrite C. cbn.
      destruct (fanout ts e); reflexivity.
Qed.

Lemma forEach_log_returns (ts : list Transport) (e : QueueEntry) (w : World) :
  Forall (well_behaved (this w)) ts ->
  exists w',
    forEach_log ts e w = Normal w' /\
    keeps w w' /\ calls w' = calls w ++ fanout ts e.
Proof.
  revert w. induction ts as [|t ts IH]; intros w H; cbn.
  - exists w. repeat split. now rewrite app_nil_r.
  - inversion H as [|? ? Ht Hts]; subst.
    destruct (Transport_log_returns t e w Ht) as (w1 & E & K & C).
    rewrite E.
    assert (Hts' : Forall (well_behaved (this w1)) ts).
    { destruct K as (K1 & _). rewrite K1. exact Hts. }
    destruct (IH w1 Hts') as (w2 & E2 & K2 & C2).
    exists w2. split; [exact E2|]. split; [eapply keeps_trans; eauto|].
    rewrite C2, C. cbn. now rewrite <- app_assoc.
Qed.

(** ** The drain loop *)

Lemma well_behaved_config (l1 l2 : Log) (t : Transport) :
  config l1 = config l2 -> well_behaved l1 t -> well_behaved l2 t.
Proof.
  intros E [H1 H2]. split; [|exact H2].
  now apply (never_enqueues_config l1 l2).
Qed.

Lemma drain_empty (fuel : nat) (w : World) :
  logQueue (this w) = [] -> drain fuel w = Normal w.
Proof. intros Q. destruct fuel; cbn; rewrite Q; reflexivity. Qed.

(** One iteration: the entry at the front leaves the queue, then it is
    handed to the transports. *)
Lemma drain_step (fuel : nat) (w : World) (e : QueueEntry) (rest : list QueueEntry) :
  logQueue (this w) = e :: rest ->
  drain (S fuel) w =
  match forEach_log (transports (config (this w))) e
          (set_this (set_logQueue rest (this w)) w) with
  | Normal w' => drain fuel w'
  | stopped => stopped
  end.
Proof. intros Q. cbn. rewrite Q. reflexivity. Qed.

(** With transports that return and never enqueue, the loop empties the
    queue: every entry, oldest first, goes to every transport. *)
Lemma drain_returns (fuel : nat) (w : World) :
  Forall (well_behaved (this w)) (transports (config (this w))) ->
  List.length (logQueue (this w)) <= fuel ->
  exists w',
    drain fuel w = Normal w' /\
    this w' = set_logQueue [] (this w) /\
    timers w' = timers w /\
    uncaught w' = uncaught w /\
    calls w' =
      calls w ++ flat_map (fanout (transports (config (this w)))) (logQueue (this w)).
Proof.
  revert w. induction fuel as [|fuel IH]; intros w Hwb Hlen.
  - destruct (logQueue (this w)) as [|e rest] eqn:Q; [|cbn in Hlen; lia].
    exists w. rewrite drain_empty by exact Q. cbn. rewrite app_nil_r.
    repeat split. destruct (this w); cbn in *. now subst.
  - destruct (logQueue (this w)) as [|e rest] eqn:Q.
    + exists w. rewrite drain_empty by exact Q. cbn. rewrite app_nil_r.
      repeat split. destruct (this w); cbn in *. now subst.
    + rewrite (drain_step fuel w e rest Q).
      set (w1 := set_this (set_logQueue rest (this w)) w).
      assert (H1 : Forall (well_behaved (this w1)) (transports (config (this w)))).
      { eapply Forall_impl; [|exact Hwb]. intros t.
        apply well_behaved_config. reflexivity. }
      destruct (forEach_log_returns _ e w1 H1) as (w2 & E & (K1 & K2 & K3) & C).
      rewrite E.
      assert (H2 : Forall (well_behaved (this w2)) (transports (config (this w2)))).
      { rewrite K1. exact H1. }
      assert (L2 : List.length (logQueue (this w2)) <= fuel).
      { rewrite K1. cbn. cbn in Hlen. lia. }
      destruct (IH w2 H2 L2) as (w3 & E3 & T3 & M3 & U3 & C3).
      exists w3. split; [exact E3|].
      rewrite T3, M3, U3, C3, K1, K2, K3, C. cbn.
      repeat split. now rewrite <- app_assoc.
Qed.

(** With transports that never enqueue, [length queue] iterations are
    enough, whether the transports return or throw. *)
Lemma drain_calm (fuel : nat) (w : World) :
  Forall (never_enqueues (this w)) (transports (config (this w))) ->
  List.length (logQueue (this w)) <= fuel ->
  match drain fuel w with
  | Normal w' => logQueue (this w') = []
  | Throw _ w' => List.length (logQueue (this w')) < List.length (logQueue (this w))
  | OutOfFuel => False
  end.
Proof.
  revert w. induction fuel as [|fuel IH]; intros w Hq Hlen.
  - destruct (logQueue (this w)) as [|e rest] eqn:Q; [|cbn in Hlen; lia].
    rewrite drain_empty by exact Q. exact Q.
  - destruct (logQueue (this w)) as [|e rest] eqn:Q.
    + rewrite drain_empty by exact Q. exact Q.
    + rewrite (drain_step fuel w e rest Q).
      set (w1 := set_this (set_logQueue rest (this w)) w).
      assert (H1 : Forall (never_enqueues (this w1)) (transports (config (this w)))).
      { eapply Forall_impl; [|exact Hq]. intros t.
        apply never_enqueues_config. reflexivity. }
      pose proof (forEach_log_calm _ e w1 H1) as F.
      destruct (forEach_log (transports (config (this w))) e w1)
        as [w2|x w2|]; [| |exact F].
      * destruct F as [(K1 & _) _].
        assert (H2 : Forall (never_enqueues (this w2)) (transports (config (this w2))))
          by (rewrite K1; exact H1).
        assert (L2 : List.length (logQueue (this w2)) <= fuel)
          by (rewrite K1; cbn; cbn in Hlen; lia).
        specialize (IH w2 H2 L2).
        destruct (drain fuel w2) as [w3|x w3|]; [exact IH| |exact IH].
        rewrite K1 in IH. cbn in IH. cbn. lia.
      * destruct F as [(K1 & _) _]. rewrite K1. cbn. lia.
Qed.

Lemma processQueue_returns (fuel : nat) (w : World) :
  isProcessing (this w) = false ->
  Forall (well_behaved (this w)) (transports (config (this w))) ->
  List.length (logQueue (this w)) <= fuel ->
  exists w',
    processQueue fuel w = Normal w' /\
    this w' = set_logQueue [] (this w) /\
    timers w' = timers w /\
    uncaught w' = uncaught w /\
    calls w' =
      calls w ++ flat_map (fanout (transports (config (this w)))) (logQueue (this w)).
Proof.
  intros Hidle Hwb Hlen. unfold processQueue. rewrite Hidle.
  set (w0 := set_this (set_isProcessing true (this w)) w).
  assert (H0 : Forall (well_behaved (this w0)) (transports (config (this w0)))).
  { cbn. eapply Forall_impl; [|exact Hwb]. intros t.
    apply well_behaved_config. reflexivity. }
  destruct (drain_returns fuel w0 H0 Hlen) as (w1 & E & T & M & U & C).
  rewrite E. eexists. split; [reflexivity|]. cbn.
  rewrite T, M, U, C. cbn. repeat split.
  destruct (this w); cbn in *. now subst.
Qed.

(** What a turn of the event loop does when the transports behave. *)
Lemma tick_returns (fuel : nat) (w : World) :
  isProcessing (this w) = false ->
  Forall (well_behaved (this w)) (transports (config (this w))) ->
  List.length (logQueue (this w)) <= fuel ->
  0 < timers w ->
  exists w',
    tick fuel w = Some w' /\
    this w' = set_logQueue [] (this w) /\
    timers w' = pred (timers w) /\
    uncaught w' = uncaught w /\
    calls w' =
      calls w ++ flat_map (fanout (transports (config (this w)))) (logQueue (this w)).
Proof.
  intros Hidle Hwb Hlen Ht. unfold tick.
  destruct (timers w) as [|n] eqn:T; [lia|].
  set (w0 := {| this := this w; timers := n; calls := calls w;
                console := console w; uncaught := uncaught w |}).
  destruct (processQueue_returns fuel w0 Hidle Hwb Hlen) as (w1 & E & A & B & C & D).
  rewrite E. exists w1. cbn in *. auto.
Qed.

(** ** Metadata depends on the configuration only *)

Lemma getTimestamp_config (l1 l2 : Log) (h : Host) :
  config l1 = config l2 -> getTimestamp l1 h = getTimestamp l2 h.
Proof. unfold getTimestamp. intros ->. reflexivity. Qed.

Lemma getCallerInfo_config (l1 l2 : Log) (h : Host) :
  config l1 = config l2 -> getCallerInfo l1 h = getCallerInfo l2 h.
Proof. unfold getCallerInfo. intros ->. reflexivity. Qed.

Lemma entry_of_config (l1 l2 : Log) (c : LogCall) :
  config l1 = config l2 -> entry_of l1 c = entry_of l2 c.
Proof.
  intros E. unfold entry_of.
  now rewrite (getTimestamp_config l1 l2 _ E), (getCallerInfo_config l1 l2 _ E).
Qed.

Lemma accepted_config (l1 l2 : Log) (cs : list LogCall) :
  config l1 = config l2 -> accepted l1 cs = accepted l2 cs.
Proof.
  intros E. unfold accepted.
  rewrite (filter_ext (permitted l1) (permitted l2))
    by (intros c; now apply permitted_config).
  apply map_ext. intros c. now apply entry_of_config.
Qed.

(** ** First in, first out *)

Section Fifo.

Variable fuel : nat.

(** The invariant of a program of log calls and ticks: what the transports
    have seen, followed by what the queue still holds for them, is the
    permitted calls in the order they were made. *)
Lemma run_fifo (ops : list Op) : forall w : World,
  logs_and_ticks ops ->
  idle w ->
  Forall (well_behaved (this w)) (transports (config (this w))) ->
  List.length (logQueue (this w)) + List.length ops <= fuel ->
  exists w',
    run fuel ops w = Some w' /\
    idle w' /\
    config (this w') = config (this w) /\
    List.length (logQueue (this w')) <= List.length (logQueue (this w)) + List.length ops /\
    calls w' ++ flat_map (fanout (transports (config (this w)))) (logQueue (this w')) =
    calls w ++ flat_map (fanout (transports (config (this w))))
                 (logQueue (this w) ++ accepted (this w) (log_calls ops)).
Proof.
  induction ops as [|o ops IH]; intros w Hops [Hidle Hsched] Hwb Hfuel.
  - exists w. cbn. unfold accepted. cbn. rewrite app_nil_r.
    repeat split; try assumption. lia.
  - inversion Hops as [|? ? Ho Hops']; subst.
    destruct o as [c| | |]; try contradiction; cbn [run step log_calls].
    + (* a logging call *)
      destruct (permitted (this w) c) eqn:P.
      * destruct (perform_permitted c w P) as (C1 & C2 & C3 & C4 & C5 & _).
        set (w1 := snd (perform c w)) in *.
        assert (I1 : idle w1) by (split; [congruence | intros _; lia]).
        assert (B1 : Forall (well_behaved (this w1)) (transports (config (this w1)))).
        { rewrite C1. eapply Forall_impl; [|exact Hwb]. intros t.
          apply well_behaved_config. now symmetry. }
        assert (F1 : List.length (logQueue (this w1)) + List.length ops <= fuel).
        { rewrite C3, length_app. cbn in *. lia. }
        destruct (IH w1 Hops' I1 B1 F1) as (w' & R & I' & K' & N' & E').
        exists w'. split; [exact R|]. split; [exact I'|].
        split; [congruence|].
        split; [rewrite C3, length_app in N'; cbn in *; lia|].
        rewrite C1 in E'. rewrite E', C5, C3.
        rewrite (accepted_config (this w1) (this w) _ C1).
        unfold accepted at 2. cbn. rewrite P. cbn.
        now rewrite <- app_assoc.
      * rewrite (perform_gated c w P). cbn.
        assert (F1 : List.length (logQueue (this w)) + List.length ops <= fuel)
          by (cbn in Hfuel; lia).
        destruct (IH w Hops' (conj Hidle Hsched) Hwb F1) as (w' & R & I' & K' & N' & E').
        exists w'. split; [exact R|]. split; [exact I'|]. split; [exact K'|].
        split; [cbn; lia|].
        rewrite E'. unfold accepted. cbn. rewrite P. reflexivity.
    + (* a turn of the event loop *)
      destruct (Nat.eq_dec (timers w) 0) as [Z|NZ].
      * unfold tick. rewrite Z.
        assert (F1 : List.length (logQueue (this w)) + List.length ops <= fuel)
          by (cbn in Hfuel; lia).
        destruct (IH w Hops' (conj Hidle Hsched) Hwb F1) as (w' & R & I' & K' & N' & E').
        exists w'. split; [exact R|]. split; [exact I'|]. split; [exact K'|].
        split; [cbn; lia | exact E'].
      * assert (L : List.length (logQueue (this w)) <= fuel) by lia.
        assert (T : 0 < timers w) by lia.
        destruct (tick_returns fuel w Hidle Hwb L T) as (w1 & E1 & A & B & _ & D).
        rewrite E1.
        assert (C1 : config (this w1) = config (this w)) by (rewrite A; reflexivity).
        assert (Q1 : logQueue (this w1) = []) by (rewrite A; reflexivity).
        assert (I1 : idle w1).
        { split; [rewrite A; exact Hidle | rewrite Q1; congruence]. }
        assert (B1 : Forall (well_behaved (this w1)) (transports (config (this w1)))).
        { rewrite C1. eapply Forall_impl; [|exact Hwb]. intros t.
          apply well_behaved_config. now symmetry. }
        assert (F1 : List.length (logQueue (this w1)) + List.length ops <= fuel).
        { rewrite Q1. cbn in *. lia. }
        destruct (IH w1 Hops' I1 B1 F1) as (w' & R & I' & K' & N' & E').
        exists w'. split; [exact R|]. split; [exact I'|].
        split; [congruence|].
        split; [rewrite Q1 in N'; cbn in *; lia|].
        rewrite C1 in E'. rewrite E', D, Q1.
        rewrite (accepted_config (this w1) (this w) _ C1).
        cbn. rewrite flat_map_app. now rewrite <- app_assoc.
Qed.

End Fifo.


Lemma run_app (fuel : nat) (ops1 ops2 : list Op) (w : World) :
  run fuel (ops1 ++ ops2) w =
  match run fuel ops1 w with
  | Some w' => run fuel ops2 w'
  | None => None
  end.
Proof.
  revert w. induction ops1 as [|o ops1 IH]; intros w; cbn; [reflexivity|].
  destruct (step fuel o w) as [w1|]; [apply IH | reflexivity].
Qed.

(** A turn of the event loop on a logger at rest leaves the queue empty and
    hands the transports all it held. *)
Lemma tick_settles (fuel : nat) (w : World) :
  idle w ->
  Forall (well_behaved (this w)) (transports (config (this w))) ->
  List.length (logQueue (this w)) <= fuel ->
  exists w',
    tick fuel w = Some w' /\
    this w' = set_logQueue [] (this w) /\
    calls w' =
      calls w ++ flat_map (fanout (transports (config (this w)))) (logQueue (this w)).
Proof.
  intros [I1 I2] B L.
  destruct (timers w) as [|n] eqn:T.
  - destruct (logQueue (this w)) as [|e q] eqn:Q.
    + exists w. unfold tick. rewrite T. cbn. rewrite app_nil_r.
      repeat split. destruct (this w); cbn in *. now subst.
    + exfalso. assert (0 < 0) by (apply I2; discriminate). lia.
  - assert (P : 0 < timers w) by lia.
    destruct (tick_returns fuel w I1 B L P) as (w' & E & A & _ & _ & D).
    exists w'. auto.
Qed.

(** One call, then a turn of the event loop. *)
Lemma call_then_tick (fuel : nat) (c : LogCall) (w : World) :
  idle w ->
  Forall (well_behaved (this w)) (transports (config (this w))) ->
  List.length (logQueue (this w)) < fuel ->
  exists w',
    run fuel [Call c; Tick] w = Some w' /\
    logQueue (this w') = [] /\
    calls w' =
      calls w ++ flat_map (fanout (transports (config (this w))))
                   (logQueue (this w) ++ accepted (this w) [c]).
Proof.
  intros Hidle Hwb Hfuel.
  assert (O : logs_and_ticks [Call c]) by (repeat constructor).
  assert (F : List.length (logQueue (this w)) + List.length [Call c] <= fuel)
    by (cbn; lia).
  destruct (run_fifo fuel [Call c] w O Hidle Hwb F) as (w1 & R & I & K & N & E).
  assert (B : Forall (well_behaved (this w1)) (transports (config (this w1)))).
  { rewrite K. eapply Forall_impl; [|exact Hwb]. intros t.
    apply well_behaved_config. now symmetry. }
  assert (L : List.length (logQueue (this w1)) <= fuel) by (cbn in N; lia).
  destruct (tick_settles fuel w1 I B L) as (w2 & T & A & D).
  exists w2. change [Call c; Tick] with ([Call c] ++ [Tick]).
  rewrite run_app, R. cbn [run step]. rewrite T.
  split; [reflexivity|]. split; [now rewrite A|].
  rewrite D, K. exact E.
Qed.

(** C1. With transports that return and do not log, and from a logger at
    rest, every program of log calls (of any levels) and event-loop turns
    runs to the end, and at that point the calls the transports have seen,
    followed by the calls the queue still owes them, are exactly the
    permitted log calls in the order they were made, each fanned out to the
    transports: nothing enqueued was reordered or lost. One more turn of the
    event loop empties the queue, after which the transports have seen all
    of them. *)
Theorem fifo_dispatch (fuel : nat) (ops : list Op) (w : World) :
  logs_and_ticks ops ->
  idle w ->
  Forall (well_behaved (this w)) (transports (config (this w))) ->
  List.length (logQueue (this w)) + List.length ops <= fuel ->
  exists w' w'',
    run fuel ops w = Some w' /\
    calls w' ++ flat_map (fanout (transports (config (this w)))) (logQueue (this w')) =
      calls w ++ flat_map (fanout (transports (config (this w))))
                   (logQueue (this w) ++ accepted (this w) (log_calls ops)) /\
    run fuel (ops ++ [Tick]) w = Some w'' /\
    logQueue (this w'') = [] /\
    calls w'' =
      calls w ++ flat_map (fanout (transports (config (this w))))
                   (logQueue (this w) ++ accepted (this w) (log_calls ops)).
Proof.
  intros Hops Hidle Hwb Hfuel.
  destruct (run_fifo fuel ops w Hops Hidle Hwb Hfuel) as (w' & R & I & K & N & E).
  assert (B : Forall (well_behaved (this w')) (transports (config (this w')))).
  { rewrite K. eapply Forall_impl; [|exact Hwb]. intros t.
    apply well_behaved_config. now symmetry. }
  assert (L : List.length (logQueue (this w')) <= fuel) by lia.
  destruct (tick_settles fuel w' I B L) as (w'' & T & A & D).
  exists w', w''. rewrite run_app, R. cbn [run step]. rewrite T.
  split; [reflexivity|]. split; [exact E|]. split; [reflexivity|].
  split; [now rewrite A|]. rewrite D, K. exact E.
Qed.

Lemma fifo_dispatch_witness :
  let w := world_with [ConsoleTransport; recorder 1] in
  let ops := [Call (say info "ready" []); Call (say debug "detail" []); Tick;
              Call (say error "boom" [JObj [("code", JNum 1)]])] in
  exists w' w'',
    run 4 ops w = Some w' /\
    calls w' ++ flat_map (fanout (transports (config (this w)))) (logQueue (this w')) =
      calls w ++ flat_map (fanout (transports (config (this w))))
                   (logQueue (this w) ++ accepted (this w) (log_calls ops)) /\
    run 4 (ops ++ [Tick]) w = Some w'' /\
    logQueue (this w'') = [] /\
    calls w'' =
      calls w ++ flat_map (fanout (transports (config (this w))))
                   (logQueue (this w) ++ accepted (this w) (log_calls ops)).
Proof.
  intros w ops. apply (fifo_dispatch 4 ops w).
  - repeat constructor.
  - split; [reflexivity | intros H; now contradiction H].
  - repeat constructor.
  - cbn. lia.
Defined.

(** ** Gating of a call *)

Lemma shouldLog_rank (h : Host) (l : Log) (lvl threshold : LogLevel) :
  is_production (NODE_ENV h) = false ->
  logLevel (config l) = LogLevel_name threshold ->
  shouldLog h l lvl = (rank threshold <=? rank lvl)%Z.
Proof.
  intros Hp Ht. unfold shouldLog. rewrite Hp, Ht, !logLevels_name. reflexivity.
Qed.

Lemma shouldLog_production (h : Host) (l : Log) (lvl : LogLevel) :
  is_production (NODE_ENV h) = true -> shouldLog h l lvl = false.
Proof. intros Hp. unfold shouldLog. now rewrite Hp. Qed.

(** C2. The production indicator is looked at first: when it is set, a call
    of any level under any threshold leaves the program state as it was, so
    no transport is ever invoked for it. Otherwise the call is permitted
    exactly when the rank of its level is at least the rank of the threshold.
    Consequently, outside production and under the threshold "warn", a debug
    or info call followed by a drain adds no transport call, and a warn or
    error call followed by a drain adds exactly one call per registered
    transport, in registration order. *)
Theorem gating_order (c : LogCall) (w : World) :
  (is_production (NODE_ENV (call_host c)) = true ->
     perform c w = (ReturnsThis, w)) /\
  (is_production (NODE_ENV (call_host c)) = false ->
     forall threshold : LogLevel,
       logLevel (config (this w)) = LogLevel_name threshold ->
       permitted (this w) c = (rank threshold <=? rank (call_level c))%Z) /\
  (is_production (NODE_ENV (call_host c)) = false ->
     logLevel (config (this w)) = "warn" ->
     idle w ->
     logQueue (this w) = [] ->
     Forall (well_behaved (this w)) (transports (config (this w))) ->
     forall fuel : nat, 0 < fuel ->
     exists w',
       run fuel [Call c; Tick] w = Some w' /\
       calls w' =
         calls w ++
         match call_level c with
         | debug | info => []
         | warn | error => fanout (transports (config (this w))) (entry_of (this w) c)
         end).
Proof.
  split; [|split].
  - intros Hp. apply perform_gated. unfold permitted.
    now apply shouldLog_production.
  - intros Hp threshold Ht. unfold permitted. now apply shouldLog_rank.
  - intros Hp Ht Hidle Hq Hwb fuel Hfuel.
    assert (F : List.length (logQueue (this w)) < fuel)
      by (rewrite Hq; cbn; lia).
    destruct (call_then_tick fuel c w Hidle Hwb F) as (w'' & R & _ & C).
    exists w''. split; [exact R|]. rewrite C, Hq. cbn [app].
    unfold accepted. cbn [filter].
    assert (P : permitted (this w) c = (rank warn <=? rank (call_level c))%Z)
      by (unfold permitted; now apply shouldLog_rank).
    rewrite P. destruct (call_level c); cbn; now rewrite ?app_nil_r.
Qed.

Lemma gating_order_witness :
  let w := configure (only_logLevel "warn") (world_with [ConsoleTransport; recorder 1]) in
  let quiet := {| call_level := error; call_host := prod_host;
                  call_message := "boom"; call_params := sample_params |} in
  let c := say error "boom" sample_params in
  perform quiet w = (ReturnsThis, w) /\
  permitted (this w) c = (rank warn <=? rank error)%Z /\
  exists w',
    run 1 [Call c; Tick] w = Some w' /\
    calls w' = calls w ++ fanout (transports (config (this w))) (entry_of (this w) c).
Proof.
  intros w quiet c.
  destruct (gating_order quiet w) as (A & _ & _).
  destruct (gating_order c w) as (_ & B & C).
  split; [apply A; reflexivity|].
  split; [apply (B eq_refl warn); reflexivity|].
  apply (C eq_refl eq_refl).
  - split; [reflexivity | intros H; now contradiction H].
  - reflexivity.
  - repeat constructor.
  - lia.
Defined.

(** The two consequences of C2 on the sample logger, evaluated: under the
    threshold "warn" the info call reaches nobody and the error call reaches
    both transports once; in production nothing reaches anybody. *)
Example threshold_warn_sample :
  let w := configure (only_logLevel "warn") (world_with [ConsoleTransport; recorder 1]) in
  option_map (fun w' => map (fun i => (inv_level i, inv_message i)) (calls w'))
    (run 2 [Call (say info "ready" []); Call (say error "boom" []); Tick] w)
  = Some [(error, "boom"); (error, "boom")].
Proof. reflexivity. Qed.

Example production_sample :
  let w := world_with [ConsoleTransport; recorder 1] in
  let shout lvl := {| call_level := lvl; call_host := prod_host;
                      call_message := "x"; call_params := [] |} in
  run 2 [Call (shout debug); Call (shout info); Call (shout warn);
         Call (shout error); Tick] w = Some w.
Proof. reflexivity. Qed.

(** ** Calls are deferred *)

Lemma log_method_chainable (lvl : LogLevel) :
  chainable_and_deferred (log_method lvl) lvl.
Proof.
  intros h msg params w c w'. subst w'. unfold log_method, permitted. cbn.
  destruct (shouldLog h (this w) lvl) eqn:P; cbn.
  - destruct (enqueueLog_fields h lvl msg params w) as (A & B & C & D & E & F).
    repeat split; try assumption. right. repeat split; try assumption.
    unfold enqueueLog. destruct (getCallerInfo (this w) h). reflexivity.
  - repeat split. left. split; reflexivity.
Qed.

(** C7. Each of [debug], [info], [warn] and [error] returns the logger
    itself and invokes no transport within the call: it only appends to the
    queue and schedules a drain, or does nothing. No step of a program other
    than a turn of the event loop, where the drain runs, adds a transport
    call. *)
Theorem log_methods_return_this_and_defer :
  chainable_and_deferred Logger.debug debug /\
  chainable_and_deferred Logger.info info /\
  chainable_and_deferred Logger.warn warn /\
  chainable_and_deferred Logger.error error /\
  (forall (fuel : nat) (o : Op) (w w' : World),
     o <> Tick -> step fuel o w = Some w' -> calls w' = calls w).
Proof.
  repeat split; try apply log_method_chainable.
  intros fuel o w w' Ho Hs. destruct o as [c|p|t|]; cbn in Hs.
  - injection Hs as <-. rewrite perform_log_method.
    apply (log_method_chainable (call_level c)).
  - injection Hs as <-. reflexivity.
  - injection Hs as <-. reflexivity.
  - contradiction.
Qed.

Lemma log_methods_return_this_and_defer_witness :
  let w := world_with [recorder 1] in
  fst (Logger.warn dev_host "careful" sample_params w) = ReturnsThis /\
  calls (addTransport (recorder 2) w) = calls w.
Proof.
  intros w.
  destruct log_methods_return_this_and_defer as (_ & _ & W & _ & S).
  split.
  - apply (W dev_host "careful" sample_params w).
  - apply (S 0 (AddTransport (recorder 2)) w); [discriminate | reflexivity].
Defined.

(** ** What a transport receives *)

(** C8. A permitted call with message [m] and extra values [vs], followed by
    a drain, reaches every registered transport once, after the entries that
    were queued before it, with [m] as the message and [vs] as the optional
    parameters of the metadata, unchanged and in order. *)
Theorem optional_params_round_trip (fuel : nat) (c : LogCall) (w : World) :
  permitted (this w) c = true ->
  idle w ->
  Forall (well_behaved (this w)) (transports (config (this w))) ->
  List.length (logQueue (this w)) < fuel ->
  exists w',
    run fuel [Call c; Tick] w = Some w' /\
    calls w' =
      calls w ++
      flat_map (fanout (transports (config (this w)))) (logQueue (this w)) ++
      map (fun t =>
             {| target := t;
                inv_level := call_level c;
                inv_message := call_message c;
                inv_meta :=
                  {| timestamp := getTimestamp (this w) (call_host c);
                     callerInfo := fst (getCallerInfo (this w) (call_host c));
                     optionalParams := call_params c |} |})
          (transports (config (this w))) /\
    forall t, In t (transports (config (this w))) ->
      exists i, In i (calls w') /\ target i = t /\
                inv_message i = call_message c /\
                optionalParams (inv_meta i) = call_params c.
Proof.
  intros P Hidle Hwb Hfuel.
  destruct (call_then_tick fuel c w Hidle Hwb Hfuel) as (w' & R & _ & C).
  unfold accepted in C. cbn [filter] in C. rewrite P in C. cbn [map] in C.
  rewrite flat_map_app in C. cbn [flat_map] in C. rewrite app_nil_r in C.
  exists w'. split; [exact R|]. split; [exact C|].
  intros t Ht. eexists. split.
  - rewrite C. apply in_or_app. right. apply in_or_app. right.
    unfold fanout. apply in_map. exact Ht.
  - cbn. repeat split.
Qed.

Lemma optional_params_round_trip_witness :
  let w := world_with [ConsoleTransport; recorder 1] in
  let c := say info "payload" sample_params in
  exists w',
    run 1 [Call c; Tick] w = Some w' /\
    calls w' =
      calls w ++
      flat_map (fanout (transports (config (this w)))) (logQueue (this w)) ++
      map (fun t =>
             {| target := t;
                inv_level := call_level c;
                inv_message := call_message c;
                inv_meta :=
                  {| timestamp := getTimestamp (this w) (call_host c);
                     callerInfo := fst (getCallerInfo (this w) (call_host c));
                     optionalParams := call_params c |} |})
          (transports (config (this w))) /\
    forall t, In t (transports (config (this w))) ->
      exists i, In i (calls w') /\ target i = t /\
                inv_message i = call_message c /\
                optionalParams (inv_meta i) = call_params c.
Proof.
  intros w c. apply (optional_params_round_trip 1 c w).
  - reflexivity.
  - split; [reflexivity | intros H; now contradiction H].
  - repeat constructor.
  - cbn. lia.
Defined.

(** The console transport passes the extra values on to [console.log] as
    they are, after the format and the two styles. *)
Example console_receives_params :
  option_map console (run 1 [Call (say info "payload" sample_params); Tick]
                        (world_with [ConsoleTransport]))
  = Some [ConsoleLog
            ("%cINFO%c [3/15/2024, 2:30:45 PM] [Log.info (/app/src/log.ts:167)]:"
               +++ nl +++ nl +++ "payload")
            "color: blue;" "color: default;" sample_params].
Proof. reflexivity. Qed.

(** ** Configuration *)

Lemma configure_frame (p : PartialConfig) (w : World) :
  logQueue (this (configure p w)) = logQueue (this w) /\
  isProcessing (this (configure p w)) = isProcessing (this w) /\
  timers (configure p w) = timers w /\
  calls (configure p w) = calls w /\
  console (configure p w) = console w /\
  uncaught (configure p w) = uncaught w.
Proof. repeat split. Qed.

(** C5. [configure] gives each field present in the partial configuration
    its new value and leaves each omitted field as it was; a [transports]
    field replaces the whole list. [addTransport] appends the transport at
    the end of the list and changes no other field. Neither touches the
    queue, the processing flag, the pending timers or what the transports
    have seen. *)
Theorem configure_merges_addTransport_appends
    (p : PartialConfig) (t : Transport) (w : World) :
  let c := config (this w) in
  let c' := config (this (configure p w)) in
  let c'' := config (this (addTransport t w)) in
  ((forall v, p_logLevel p = Some v -> logLevel c' = v) /\
   (p_logLevel p = None -> logLevel c' = logLevel c)) /\
  ((forall v, p_enableTimestamps p = Some v -> enableTimestamps c' = v) /\
   (p_enableTimestamps p = None -> enableTimestamps c' = enableTimestamps c)) /\
  ((forall v, p_enableCallerInfo p = Some v -> enableCallerInfo c' = v) /\
   (p_enableCallerInfo p = None -> enableCallerInfo c' = enableCallerInfo c)) /\
  ((forall v, p_enableColors p = Some v -> enableColors c' = v) /\
   (p_enableColors p = None -> enableColors c' = enableColors c)) /\
  ((forall ts, p_transports p = Some ts -> transports c' = ts) /\
   (p_transports p = None -> transports c' = transports c)) /\
  ((forall v, p_humanReadableTimestamp p = Some v -> humanReadableTimestamp c' = v) /\
   (p_humanReadableTimestamp p = None ->
      humanReadableTimestamp c' = humanReadableTimestamp c)) /\
  (logQueue (this (configure p w)) = logQueue (this w) /\
   isProcessing (this (configure p w)) = isProcessing (this w) /\
   timers (configure p w) = timers w /\
   calls (configure p w) = calls w) /\
  transports c'' = transports c ++ [t] /\
  (logLevel c'' = logLevel c /\
   enableTimestamps c'' = enableTimestamps c /\
   enableCallerInfo c'' = enableCallerInfo c /\
   enableColors c'' = enableColors c /\
   humanReadableTimestamp c'' = humanReadableTimestamp c) /\
  (logQueue (this (addTransport t w)) = logQueue (this w) /\
   isProcessing (this (addTransport t w)) = isProcessing (this w) /\
   timers (addTransport t w) = timers w /\
   calls (addTransport t w) = calls w).
Proof.
  intros c c' c''. subst c c' c''. cbn.
  repeat match goal with
         | |- _ /\ _ => split
         | |- forall _, _ = Some _ -> _ => intros ? ->; reflexivity
         | |- _ = None -> _ => intros ->; reflexivity
         | |- _ => reflexivity
         end.
Qed.

Lemma configure_merges_addTransport_appends_witness :
  let w := world_with [ConsoleTransport] in
  let p := only_transports [recorder 1; recorder 2] in
  transports (config (this (configure p w))) = [recorder 1; recorder 2] /\
  logLevel (config (this (configure p w))) = logLevel (config (this w)) /\
  enableColors (config (this (configure p w))) = enableColors (config (this w)) /\
  transports (config (this (addTransport (recorder 3) w))) =
    [ConsoleTransport; recorder 3].
Proof.
  intros w p.
  destruct (configure_merges_addTransport_appends p (recorder 3) w)
    as ((_ & L) & _ & _ & (_ & C) & (T & _) & _ & _ & A & _).
  split; [apply T; reflexivity|].
  split; [apply L; reflexivity|].
  split; [apply C; reflexivity|].
  exact A.
Defined.

(** C9. The metadata of an entry is computed when the call is made, from the
    configuration of that moment. A [configure] between the call and the
    drain leaves the queued entry as it is, and the drain hands it, with that
    metadata, to the transports registered when it runs. *)
Theorem metadata_fixed_at_enqueue
    (fuel : nat) (c : LogCall) (p : PartialConfig) (w : World) :
  permitted (this w) c = true ->
  idle w ->
  Forall (well_behaved (this (configure p (snd (perform c w)))))
         (transports (config (this (configure p (snd (perform c w)))))) ->
  List.length (logQueue (this w)) < fuel ->
  logQueue (this (configure p (snd (perform c w)))) =
    logQueue (this w) ++
      [{| level := call_level c;
          message := call_message c;
          meta := {| timestamp := getTimestamp (this w) (call_host c);
                     callerInfo := fst (getCallerInfo (this w) (call_host c));
                     optionalParams := call_params c |} |}] /\
  exists w',
    run fuel [Call c; Configure p; Tick] w = Some w' /\
    calls w' =
      calls w ++
      flat_map (fanout (transports (config (this (configure p (snd (perform c w)))))))
        (logQueue (this w) ++
           [{| level := call_level c;
               message := call_message c;
               meta := {| timestamp := getTimestamp (this w) (call_host c);
                          callerInfo := fst (getCallerInfo (this w) (call_host c));
                          optionalParams := call_params c |} |}]).
Proof.
  intros P [I1 I2] Hwb Hfuel.
  destruct (perform_permitted c w P) as (C1 & C2 & C3 & C4 & C5 & _).
  set (w1 := snd (perform c w)) in *.
  set (w2 := configure p w1) in *.
  assert (Q2 : logQueue (this w2) = logQueue (this w) ++ [entry_of (this w) c])
    by exact C3.
  split; [exact Q2|].
  assert (I : idle w2).
  { split; [cbn; congruence | intros _; cbn; lia]. }
  assert (L : List.length (logQueue (this w2)) <= fuel).
  { rewrite Q2, length_app. cbn. lia. }
  destruct (tick_settles fuel w2 I Hwb L) as (w' & T & _ & D).
  exists w'. cbn [run step]. fold w1. fold w2. rewrite T.
  split; [reflexivity|]. rewrite D, Q2. cbn [calls configure set_this w2].
  now rewrite C5.
Qed.

Lemma metadata_fixed_at_enqueue_witness :
  let w := world_with [recorder 1] in
  let c := say info "before" [] in
  let p := only_enableTimestamps false in
  exists w',
    run 1 [Call c; Configure p; Tick] w = Some w' /\
    map (fun i => timestamp (inv_meta i)) (calls w') = ["3/15/2024, 2:30:45 PM"] /\
    getTimestamp (this w') dev_host = "timestamp disabled".
Proof.
  intros w c p.
  destruct (metadata_fixed_at_enqueue 1 c p w) as (_ & w' & R & C).
  - reflexivity.
  - split; [reflexivity | intros H; now contradiction H].
  - repeat constructor.
  - cbn. lia.
  - exists w'. split; [exact R|]. split.
    + rewrite C. reflexivity.
    + cbn in R. injection R as <-. reflexivity.
Defined.

(** ** The threshold at first access *)

Lemma getInstance_reuses (raw : option string) (l : Log) :
  getInstance raw (Some l) = (l, Some l).
Proof. reflexivity. Qed.

Lemma debug_threshold_permits (h : Host) (l : Log) (lvl : LogLevel) :
  logLevel (config l) = "debug" ->
  shouldLog h l lvl = negb (is_production (NODE_ENV h)).
Proof.
  intros E. unfold shouldLog. rewrite E.
  destruct (is_production (NODE_ENV h)); [reflexivity|].
  destruct lvl; reflexivity.
Qed.

(** A name that is neither empty nor in the table is kept, and then no call
    passes the comparison of ranks. *)
Lemma unrecognized_level_silences (s : string) (h : Host) (lvl : LogLevel) :
  recognized s = false ->
  s <> "" ->
  logLevel (config (fst (getInstance (Some s) None))) = s /\
  shouldLog h (fst (getInstance (Some s) None)) lvl = false.
Proof.
  intros R N. cbn.
  destruct (String.eqb_spec s "") as [E|_]; [contradiction|].
  split; [reflexivity|]. unfold shouldLog. cbn.
  destruct (String.eqb_spec s "") as [E|_]; [contradiction|].
  unfold recognized in R.
  destruct (is_production (NODE_ENV h)); [reflexivity|].
  destruct (logLevels s); [discriminate|].
  destruct (logLevels (LogLevel_name lvl)); reflexivity.
Qed.

(** C3, as stated, fails: the name "verbose" is not one of the four, yet the
    logger built from it keeps "verbose" as its threshold and lets no call
    through, where the threshold "debug" lets every call through. *)
Lemma unrecognized_level_is_not_defaulted :
  absent_or_unrecognized (Some "verbose") /\
  ~ falls_back_to_debug (Some "verbose").
Proof.
  split; [reflexivity|].
  intros [H _]. cbn in H. discriminate.
Qed.

(** C3, amended. At first access the threshold comes from the level name of
    the environment. When the name is absent or empty, the threshold is
    "debug" and every call outside production is permitted. Any other name,
    recognized or not, is stored as it is. Later accesses return the same
    instance whatever the environment says then. *)
Theorem default_threshold (raw : option string) :
  (raw = None \/ raw = Some "" -> falls_back_to_debug raw) /\
  (forall s, raw = Some s -> s <> "" ->
     logLevel (config (fst (getInstance raw None))) = s) /\
  (forall l later, fst (getInstance later (snd (getInstance raw None))) =
                   fst (getInstance raw None) /\
                   getInstance later (Some l) = (l, Some l)).
Proof.
  split; [|split].
  - intros [-> | ->]; split; try reflexivity;
      intros h lvl; now apply debug_threshold_permits.
  - intros s -> N. cbn.
    destruct (String.eqb_spec s "") as [E|_]; [contradiction | reflexivity].
  - intros l later. split; reflexivity.
Qed.

Lemma default_threshold_witness :
  falls_back_to_debug (Some "") /\
  logLevel (config (fst (getInstance (Some "warn") None))) = "warn".
Proof.
  split.
  - destruct (default_threshold (Some "")) as (A & _). apply A. right. reflexivity.
  - destruct (default_threshold (Some "warn")) as (_ & B & _).
    apply (B "warn"); [reflexivity | discriminate].
Defined.

(** ** A transport that throws *)

Lemma perform_isProcessing (c : LogCall) (w : World) :
  isProcessing (this (snd (perform c w))) = isProcessing (this w).
Proof.
  rewrite perform_log_method.
  apply (log_method_chainable (call_level c)).
Qed.

Lemma relog_isProcessing (cs : list LogCall) (w : World) :
  isProcessing (this (fold_left (fun w c => snd (perform c w)) cs w)) =
  isProcessing (this w).
Proof.
  revert w. induction cs as [|c cs IH]; intros w; cbn; [reflexivity|].
  rewrite IH. apply perform_isProcessing.
Qed.

Lemma Transport_log_isProcessing (t : Transport) (e : QueueEntry) (w : World) :
  flag_kept w (Transport_log t e w).
Proof.
  destruct t as [|n b]; cbn; [reflexivity|].
  unfold Transport_log. cbv zeta.
  destruct (raises _); cbn; now rewrite relog_isProcessing.
Qed.

Lemma forEach_log_isProcessing (ts : list Transport) (e : QueueEntry) (w : World) :
  flag_kept w (forEach_log ts e w).
Proof.
  revert w. induction ts as [|t ts IH]; intros w; cbn; [reflexivity|].
  pose proof (Transport_log_isProcessing t e w) as H.
  destruct (Transport_log t e w) as [w1|x w1|]; cbn in *; [|exact H|exact I].
  specialize (IH w1). destruct (forEach_log ts e w1); cbn in *; congruence.
Qed.

Lemma drain_isProcessing (fuel : nat) (w : World) :
  flag_kept w (drain fuel w).
Proof.
  revert w. induction fuel as [|fuel IH]; intros w.
  - cbn. destruct (logQueue (this w)); cbn; trivial.
  - destruct (logQueue (this w)) as [|e rest] eqn:Q.
    + rewrite drain_empty by exact Q. reflexivity.
    + rewrite (drain_step fuel w e rest Q).
      pose proof (forEach_log_isProcessing (transports (config (this w))) e
                    (set_this (set_logQueue rest (this w)) w)) as H.
      destruct (forEach_log _ e _) as [w1|x w1|]; cbn in *; [|exact H|exact I].
      specialize (IH w1). destruct (drain fuel w1); cbn in *; congruence.
Qed.

(** A drain that ends by a throw leaves the processing flag set. *)
Lemma processQueue_throw_sets_flag (fuel : nat) (w w' : World) (x : any) :
  processQueue fuel w = Throw x w' -> isProcessing (this w') = true.
Proof.
  unfold processQueue. destruct (isProcessing (this w)) eqn:P; [discriminate|].
  pose proof (drain_isProcessing fuel (set_this (set_isProcessing true (this w)) w)) as H.
  destruct (drain fuel _) as [w1|y w1|]; try discriminate.
  intros E. injection E as _ <-. exact H.
Qed.

(** With the flag set and no drain running, nothing a program does invokes a
    transport again or clears the flag. *)
Lemma stuck_forever (fuel : nat) (ops : list Op) : forall w : World,
  isProcessing (this w) = true ->
  exists w',
    run fuel ops w = Some w' /\
    calls w' = calls w /\
    isProcessing (this w') = true.
Proof.
  induction ops as [|o ops IH]; intros w P; [exists w; auto|].
  assert (S : exists w1, step fuel o w = Some w1 /\ calls w1 = calls w /\
                         isProcessing (this w1) = true).
  { destruct o as [c|p|t|]; cbn.
    - eexists. split; [reflexivity|]. rewrite perform_isProcessing.
      split; [|exact P]. rewrite perform_log_method.
      apply (log_method_chainable (call_level c)).
    - eexists. repeat split. exact P.
    - eexists. repeat split. exact P.
    - unfold tick. destruct (timers w) as [|n]; [exists w; auto|].
      unfold processQueue. cbn. rewrite P. eexists. repeat split. exact P. }
  destruct S as (w1 & E & C & P1). cbn. rewrite E.
  destruct (IH w1 P1) as (w' & R & C' & P').
  exists w'. split; [exact R|]. split; [congruence | exact P'].
Qed.

(** C4 on the code. Two transports, the first of which throws; "a" and "b"
    are logged in one turn, the drain of "a" throws, and "c" is logged after
    that. The second transport never gets "a"; "b" and "c" stay in the queue
    through the later turns, because the processing flag was left set; and
    whatever the program does from there on, no transport is invoked again. *)
Theorem transport_failure_blocks_later_drains (fuel : nat) (later : list Op) :
  exists w1,
    run 3 [Call (say info "a" []); Call (say info "b" []); Tick; Tick;
           Call (say info "c" []); Tick; Tick]
        (world_with [failing 1; recorder 2]) = Some w1 /\
    summary w1 = (["a"], ["b"; "c"], true, 0, [JStr "sink down"]) /\
    exists w2,
      run fuel later w1 = Some w2 /\
      map inv_message (calls w2) = ["a"] /\
      isProcessing (this w2) = true.
Proof.
  eexists. split; [reflexivity|]. split; [reflexivity|].
  match goal with
  | |- exists w2, run _ _ ?w1 = _ /\ _ =>
      destruct (stuck_forever fuel later w1 eq_refl) as (w2 & R & C & P)
  end.
  exists w2. split; [exact R|]. split; [|exact P].
  rewrite C. reflexivity.
Qed.

(** ** Caller information *)

Lemma nth_error_short {A : Type} (l : list A) (n : nat) :
  (n <? List.length l) = false -> nth_error l n = None.
Proof. intros H. apply nth_error_None. apply Nat.ltb_ge. exact H. Qed.

Lemma nth_error_long {A : Type} (l : list A) (n : nat) (d : A) :
  (n <? List.length l) = true -> nth_error l n = Some (nth n l d).
Proof. intros H. apply nth_error_nth'. apply Nat.ltb_lt. exact H. Qed.

Lemma getCallerInfo_try_line (text : string) :
  getCallerInfo_try (StackText text) =
  Returned match caller_line text with
           | Some line => describe_frame line
           | None => None
           end.
Proof.
  unfold getCallerInfo_try, caller_line. cbv zeta.
  destruct (3 <? List.length (split_newline text)) eqn:L.
  - rewrite (nth_error_long _ 3 "" L). unfold describe_frame.
    destruct (String_match _ re_named_frame); [reflexivity|].
    destruct (String_match _ re_bare_frame); reflexivity.
  - now rewrite (nth_error_short _ 3 L).
Qed.

(** What [getCallerInfo] does with the captured stack, line by line of the
    text. With caller information enabled, the value is read off the line at
    index three of the captured stack, and off that line alone; when the
    stack is absent or has no such line, or when neither pattern matches the
    line, the value is "unknown"; when the capture throws, the exception is
    written with [console.error], the value is "unknown", and the logging
    method that asked for it still returns the logger, with the entry
    queued and nothing thrown to its caller. *)
Theorem caller_info_extraction (l : Log) (h : Host) :
  enableCallerInfo (config l) = true ->
  match errorStack h with
  | StackText text =>
      getCallerInfo l h =
      (match caller_line text with
       | Some line =>
           match describe_frame line with
           | Some described => described
           | None => "unknown"
           end
       | None => "unknown"
       end, [])
  | StackUndefined => getCallerInfo l h = ("unknown", [])
  | StackFaulty e =>
      getCallerInfo l h = ("unknown", [ConsoleError "Error getting caller info" e]) /\
      forall (lvl : LogLevel) (msg : string) (params : list any) (w : World),
        this w = l ->
        shouldLog h l lvl = true ->
        let w' := snd (log_method lvl h msg params w) in
        fst (log_method lvl h msg params w) = ReturnsThis /\
        uncaught w' = uncaught w /\
        console w' = console w ++ [ConsoleError "Error getting caller info" e] /\
        map (fun q => callerInfo (meta q)) (logQueue (this w')) =
          map (fun q => callerInfo (meta q)) (logQueue (this w)) ++ ["unknown"]
  end.
Proof.
  intros En. unfold getCallerInfo. rewrite En. cbn [negb].
  destruct (errorStack h) as [|text|e] eqn:S.
  - reflexivity.
  - rewrite getCallerInfo_try_line.
    destruct (caller_line text) as [line|]; [|reflexivity].
    destruct (describe_frame line); reflexivity.
  - cbn. split; [reflexivity|].
    intros lvl msg params w <- P. unfold log_method. rewrite P. cbn [fst snd].
    unfold enqueueLog, getCallerInfo. rewrite En, S. cbn.
    repeat split. now rewrite map_app.
Qed.

Lemma caller_info_extraction_witness :
  getCallerInfo (this (boot None)) dev_host =
    ("Log.info (/app/src/log.ts:167)", []) /\
  getCallerInfo (this (boot None)) (host_with_stack (StackText firefox_stack)) =
    ("unknown", []) /\
  getCallerInfo (this (boot None)) (host_with_stack (StackText "Error")) =
    ("unknown", []) /\
  getCallerInfo (this (boot None)) (host_with_stack StackUndefined) =
    ("unknown", []) /\
  getCallerInfo (this (boot None)) broken_stack_host =
    ("unknown",
     [ConsoleError "Error getting caller info" (JStr "stack.split is not a function")]).
Proof.
  pose proof (caller_info_extraction (this (boot None))) as T.
  split; [exact (T dev_host eq_refl)|].
  split; [exact (T (host_with_stack (StackText firefox_stack)) eq_refl)|].
  split; [exact (T (host_with_stack (StackText "Error")) eq_refl)|].
  split; [exact (T (host_with_stack StackUndefined) eq_refl)|].
  exact (proj1 (T broken_stack_host eq_refl)).
Defined.

(** The lines before and after index three do not matter. *)
Lemma caller_info_ignores_other_lines (l : Log) (h1 h2 : Host) (t1 t2 : string) :
  errorStack h1 = StackText t1 ->
  errorStack h2 = StackText t2 ->
  caller_line t1 = caller_line t2 ->
  getCallerInfo l h1 = getCallerInfo l h2.
Proof.
  intros E1 E2 E. unfold getCallerInfo.
  destruct (negb (enableCallerInfo (config l))); [reflexivity|].
  now rewrite E1, E2, !getCallerInfo_try_line, E.
Qed.

(** With caller information disabled, the stack is not looked at. *)
Lemma caller_info_disabled (l : Log) (h : Host) :
  enableCallerInfo (config l) = false ->
  getCallerInfo l h = ("caller info disabled", []).
Proof. intros E. unfold getCallerInfo. now rewrite E. Qed.

(** C6 on the code. The line [getCallerInfo] reads, index three of the
    text, is the frame two levels up from the point of capture in every
    stack that has a header line: above [getCallerInfo] and [enqueueLog]
    only, so it is the public logging method itself. For a call of
    [Logger.info] from [main], the value is the description of [Log.info]
    inside [log.ts], where the frame three levels up, which the claim
    names, is the one of [main] and would be described as such. *)
Theorem caller_info_names_the_public_method :
  (forall text : string, caller_line text = frame_up 2 text) /\
  frame_up 0 v8_stack = Some "    at Log.getCallerInfo (/app/src/log.ts:94:21)" /\
  frame_up 1 v8_stack = Some "    at Log.enqueueLog (/app/src/log.ts:132:24)" /\
  frame_up 2 v8_stack = Some "    at Log.info (/app/src/log.ts:167:12)" /\
  frame_up 3 v8_stack = Some "    at main (/app/src/main.ts:7:10)" /\
  getCallerInfo (this (boot None)) dev_host =
    ("Log.info (/app/src/log.ts:167)", []) /\
  describe_frame "    at main (/app/src/main.ts:7:10)" =
    Some "main (/app/src/main.ts:7)".
Proof.
  split.
  - intros text. unfold caller_line, frame_up, v8_frames.
    destruct (split_newline text) as [|header frames]; reflexivity.
  - repeat split; reflexivity.
Qed.

(** ** Termination of the drain *)

(** C10. When no transport adds to the queue while it is drained, the loop
    of [processQueue] ends within as many iterations as the queue has
    entries, by emptying the queue or by a throw. Each iteration takes one
    entry off the front, and the fan-out gives the queue back as it got it,
    so the queue is one shorter at the next test of the loop. *)
Theorem drain_terminates (fuel : nat) (w : World) :
  Forall (never_enqueues (this w)) (transports (config (this w))) ->
  List.length (logQueue (this w)) <= fuel ->
  drain fuel w <> OutOfFuel /\
  processQueue fuel w <> OutOfFuel /\
  (forall w', drain fuel w = Normal w' -> logQueue (this w') = []) /\
  (forall (e : QueueEntry) (rest : list QueueEntry),
     logQueue (this w) = e :: rest ->
     let served := forEach_log (transports (config (this w))) e
                     (set_this (set_logQueue rest (this w)) w) in
     served <> OutOfFuel /\
     (forall w1, served = Normal w1 -> logQueue (this w1) = rest) /\
     (forall n, drain (S n) w =
                match served with
                | Normal w1 => drain n w1
                | stopped => stopped
                end)).
Proof.
  intros Hq Hlen.
  pose proof (drain_calm fuel w Hq Hlen) as D.
  split; [|split; [|split]].
  - intros E. rewrite E in D. exact D.
  - unfold processQueue. destruct (isProcessing (this w)); [discriminate|].
    set (w0 := set_this (set_isProcessing true (this w)) w).
    assert (H0 : Forall (never_enqueues (this w0)) (transports (config (this w0)))).
    { cbn. eapply Forall_impl; [|exact Hq]. intros t.
      apply never_enqueues_config. reflexivity. }
    pose proof (drain_calm fuel w0 H0 Hlen) as D0.
    destruct (drain fuel w0); [discriminate | discriminate | contradiction].
  - intros w' E. rewrite E in D. exact D.
  - intros e rest Q served.
    set (w1 := set_this (set_logQueue rest (this w)) w) in *.
    assert (H1 : Forall (never_enqueues (this w1)) (transports (config (this w)))).
    { eapply Forall_impl; [|exact Hq]. intros t.
      apply never_enqueues_config. reflexivity. }
    pose proof (forEach_log_calm _ e w1 H1) as F. fold served in F.
    split; [|split].
    + intros E. rewrite E in F. exact F.
    + intros w2 E. rewrite E in F. destruct F as [(K & _) _]. now rewrite K.
    + intros n. rewrite (drain_step n w e rest Q). fold w1. fold served.
      destruct served; reflexivity.
Qed.

Lemma drain_terminates_witness :
  let w := snd (perform (say warn "one" [])
             (snd (perform (say info "two" []) (world_with [failing 1; recorder 2])))) in
  drain 2 w <> OutOfFuel /\ processQueue 2 w <> OutOfFuel.
Proof.
  intros w.
  destruct (drain_terminates 2 w) as (A & B & _).
  - repeat constructor.
  - vm_compute. lia.
  - split; assumption.
Defined.

(** The proviso of C10 is needed: with a transport that logs what it gets,
    one queued entry keeps the loop going for ever. *)
Lemma echo_keeps_the_queue_busy (fuel : nat) : forall w : World,
  config (this w) = config (this (world_with [echo 1])) ->
  logQueue (this w) <> [] ->
  drain fuel w = OutOfFuel.
Proof.
  induction fuel as [|fuel IH]; intros w C Q.
  - cbn. destruct (logQueue (this w)); [contradiction | reflexivity].
  - destruct (logQueue (this w)) as [|e rest] eqn:E; [contradiction|].
    rewrite (drain_step fuel w e rest E), C.
    set (w1 := set_this (set_logQueue rest (this w)) w).
    cbn [world_with configure boot this set_this config set_config spread
         transports only_transports p_transports over forEach_log].
    unfold Transport_log, echo. cbv zeta. cbn [relog raises fold_left].
    set (w2 := record_call _ w1).
    assert (P : permitted (this w2) (say (level e) (message e) []) = true).
    { unfold permitted, shouldLog. cbn [this w2 record_call w1 set_this config set_logQueue].
      rewrite C. cbn. destruct (level e); reflexivity. }
    destruct (perform_permitted _ w2 P) as (C1 & _ & C3 & _).
    apply IH.
    + rewrite C1. exact C.
    + rewrite C3. intros H. apply app_eq_nil in H. destruct H as [_ H].
      discriminate.
Qed.

(** * Further properties of the code *)

(** ** The filter *)

(** A logger that lets a level through lets every level of higher rank
    through, whatever its threshold is, recognized or not. *)
Theorem shouldLog_monotone_in_level (h : Host) (l : Log) (lvl lvl' : LogLevel) :
  (rank lvl <= rank lvl')%Z ->
  shouldLog h l lvl = true ->
  shouldLog h l lvl' = true.
Proof.
  unfold shouldLog. intros R.
  destruct (is_production (NODE_ENV h)); [discriminate|].
  rewrite !logLevels_name.
  destruct (logLevels (logLevel (config l))) as [t|]; cbn; [|discriminate].
  intros H. apply Z.leb_le in H. apply Z.leb_le. lia.
Qed.

Lemma shouldLog_monotone_in_level_witness :
  shouldLog dev_host (this (configure (only_logLevel "info") (boot None))) error = true.
Proof.
  apply (shouldLog_monotone_in_level dev_host _ warn error).
  - cbn. lia.
  - reflexivity.
Defined.

(** Lowering the threshold never filters out a call that passed: what a
    logger with threshold [t2] permits, a logger with a threshold of lower
    or equal rank permits too. *)
Theorem shouldLog_antitone_in_threshold
    (h : Host) (l1 l2 : Log) (t1 t2 lvl : LogLevel) :
  logLevel (config l1) = LogLevel_name t1 ->
  logLevel (config l2) = LogLevel_name t2 ->
  (rank t1 <= rank t2)%Z ->
  shouldLog h l2 lvl = true ->
  shouldLog h l1 lvl = true.
Proof.
  unfold shouldLog. intros E1 E2 R.
  destruct (is_production (NODE_ENV h)); [discriminate|].
  rewrite E1, E2, !logLevels_name. cbn.
  intros H. apply Z.leb_le in H. apply Z.leb_le. lia.
Qed.

Lemma shouldLog_antitone_in_threshold_witness :
  shouldLog dev_host (this (configure (only_logLevel "info") (boot None))) warn = true.
Proof.
  apply (shouldLog_antitone_in_threshold dev_host _
           (this (configure (only_logLevel "warn") (boot None))) info warn warn).
  - reflexivity.
  - reflexivity.
  - cbn. lia.
  - reflexivity.
Defined.

(** ** The algebra of [configure] and [addTransport] *)

Lemma over_later_first {A : Type} (first second : option A) (x : A) :
  over second (over first x) = over (later_first first second) x.
Proof. destruct second; reflexivity. Qed.

Lemma spread_spread (c : LoggerConfig) (p q : PartialConfig) :
  spread (spread c p) q = spread c (merge_options p q).
Proof.
  unfold spread, merge_options. cbn. now rewrite !over_later_first.
Qed.

Lemma spread_no_options (c : LoggerConfig) : spread c no_options = c.
Proof. destruct c. reflexivity. Qed.

Lemma merge_options_same (p : PartialConfig) : merge_options p p = p.
Proof.
  destruct p as [a b c d e f]. unfold merge_options. cbn.
  destruct a, b, c, d, e, f; reflexivity.
Qed.

(** Two calls of [configure] in a row are one call with the two objects
    merged, the later over the earlier; a call with an empty object changes
    nothing; and repeating a call changes nothing more. *)
Theorem configure_composes (p q : PartialConfig) (w : World) :
  configure q (configure p w) = configure (merge_options p q) w /\
  configure no_options w = w /\
  configure p (configure p w) = configure p w.
Proof.
  assert (C : forall a b, configure b (configure a w) = configure (merge_options a b) w).
  { intros a b. unfold configure. cbn. now rewrite spread_spread. }
  split; [apply C|]. split.
  - unfold configure. rewrite spread_no_options.
    destruct w as [[c qu f] t cl co u]. reflexivity.
  - rewrite C. now rewrite merge_options_same.
Qed.

Lemma contents_configure (p : PartialObject) (m : Memory) :
  contents (configure_in_place p m) =
  spread (contents m) (read_options (arrays m) p).
Proof.
  unfold contents, spread, configure_in_place, spread_object. cbn.
  destruct (q_transports p); reflexivity.
Qed.

Lemma contents_addTransport (t : Transport) (m : Memory) :
  contents (addTransport_in_place t m) = push_transport t (contents m).
Proof.
  unfold contents, push_transport, addTransport_in_place, push. cbn.
  now rewrite Nat.eqb_refl.
Qed.

(** [addTransport] pushes onto the very array that [configure] was given.
    After [configure(p)] with a [transports] array and [addTransport(t)],
    that array itself ends with [t]; so a second [configure(p)] with the
    same array keeps [t], while a [configure] with another array drops it,
    and a [configure] without the key commutes with [addTransport]. For the
    logger's own view of its configuration, [configure] is the spread of
    the values read at the call and [addTransport] appends at the end. *)
Theorem addTransport_pushes_onto_shared_array
    (p : PartialObject) (r : ArrayRef) (t : Transport) (m : Memory) :
  q_transports p = Some r ->
  let m1 := addTransport_in_place t (configure_in_place p m) in
  arrays m1 r = arrays m r ++ [t] /\
  transports (contents (configure_in_place p m1)) = arrays m r ++ [t] /\
  (forall (p' : PartialObject) (r' : ArrayRef),
     q_transports p' = Some r' -> r' <> r ->
     transports (contents (configure_in_place p' m1)) = arrays m r') /\
  (forall p0 : PartialObject,
     q_transports p0 = None ->
     contents (configure_in_place p0 (addTransport_in_place t m)) =
     contents (addTransport_in_place t (configure_in_place p0 m))) /\
  contents m1 = push_transport t (spread (contents m) (read_options (arrays m) p)).
Proof.
  intros E m1. subst m1.
  assert (A : arrays (addTransport_in_place t (configure_in_place p m)) r =
              arrays m r ++ [t]).
  { cbn. rewrite E. cbn. unfold push. now rewrite Nat.eqb_refl. }
  split; [exact A|]. split; [|split; [|split]].
  - cbn. rewrite E. cbn. unfold push. now rewrite Nat.eqb_refl.
  - intros p' r' E' N. cbn. rewrite E', E. cbn. unfold push.
    destruct (Nat.eqb_spec r' r) as [C|_]; [contradiction | reflexivity].
  - intros p0 E0. rewrite !contents_addTransport, !contents_configure.
    unfold spread, push_transport, read_options. cbn. rewrite E0. cbn.
    unfold push. now rewrite ?Nat.eqb_refl.
  - now rewrite contents_addTransport, contents_configure.
Qed.

Lemma addTransport_pushes_onto_shared_array_witness :
  let m1 := addTransport_in_place (recorder 2)
              (configure_in_place (only_array 1) sample_memory) in
  arrays m1 1 = [recorder 1; recorder 2] /\
  transports (contents (configure_in_place (only_array 1) m1)) =
    [recorder 1; recorder 2] /\
  transports (contents (configure_in_place (only_array 2) m1)) = [recorder 1].
Proof.
  intros m1.
  destruct (addTransport_pushes_onto_shared_array
              (only_array 1) 1 (recorder 2) sample_memory eq_refl)
    as (A & B & C & _).
  split; [exact A|]. split; [exact B|].
  apply (C (only_array 2) 2); [reflexivity | discriminate].
Defined.

(** ** What any transport leaves alone *)

Lemma same_setup_refl (w : World) : same_setup w w.
Proof. repeat split. Qed.

Lemma same_setup_trans (w1 w2 w3 : World) :
  same_setup w1 w2 -> same_setup w2 w3 -> same_setup w1 w3.
Proof.
  intros (A1 & A2 & A3) (B1 & B2 & B3). repeat split; congruence.
Qed.

Lemma perform_same_setup (c : LogCall) (w : World) :
  same_setup w (snd (perform c w)).
Proof.
  rewrite perform_log_method.
  destruct (log_method_chainable (call_level c) (call_host c) (call_message c)
              (call_params c) w) as (_ & _ & U & C & P & _).
  repeat split; assumption.
Qed.

Lemma relog_same_setup (cs : list LogCall) (w : World) :
  same_setup w (fold_left (fun w c => snd (perform c w)) cs w).
Proof.
  revert w. induction cs as [|c cs IH]; intros w; cbn; [apply same_setup_refl|].
  eapply same_setup_trans; [apply perform_same_setup | apply IH].
Qed.

Lemma Transport_log_same_setup (t : Transport) (e : QueueEntry) (w : World) :
  ends_with (same_setup w) (Transport_log t e w).
Proof.
  destruct t as [|n b]; cbn; [repeat split|].
  unfold Transport_log. cbv zeta.
  set (w1 := record_call _ w).
  pose proof (relog_same_setup (relog (b (level e) (message e) (meta e))) w1) as H.
  destruct (raises _); cbn; exact H.
Qed.

Lemma forEach_log_same_setup (ts : list Transport) (e : QueueEntry) (w : World) :
  ends_with (same_setup w) (forEach_log ts e w).
Proof.
  revert w. induction ts as [|t ts IH]; intros w; cbn; [apply same_setup_refl|].
  pose proof (Transport_log_same_setup t e w) as H.
  destruct (Transport_log t e w) as [w1|x w1|]; cbn in *; [|exact H|exact I].
  specialize (IH w1).
  destruct (forEach_log ts e w1); cbn in *; trivial;
    exact (same_setup_trans _ _ _ H IH).
Qed.

Lemma drain_same_setup (fuel : nat) (w : World) :
  ends_with (same_setup w) (drain fuel w).
Proof.
  revert w. induction fuel as [|fuel IH]; intros w.
  - cbn. destruct (logQueue (this w)); cbn; [apply same_setup_refl | exact I].
  - destruct (logQueue (this w)) as [|e rest] eqn:Q.
    + rewrite drain_empty by exact Q. apply same_setup_refl.
    + rewrite (drain_step fuel w e rest Q).
      set (w1 := set_this (set_logQueue rest (this w)) w).
      assert (S1 : same_setup w w1) by (repeat split).
      pose proof (forEach_log_same_setup (transports (config (this w))) e w1) as H.
      destruct (forEach_log _ e w1) as [w2|x w2|]; cbn in *;
        [|exact (same_setup_trans _ _ _ S1 H) | exact I].
      pose proof (same_setup_trans _ _ _ S1 H) as S2.
      specialize (IH w2).
      destruct (drain fuel w2) as [w3|x w3|]; cbn in *; trivial;
        exact (same_setup_trans _ _ _ S2 IH).
Qed.

(** ** Drains, whatever the transports do *)

Lemma drain_normal_empty (fuel : nat) : forall w w' : World,
  drain fuel w = Normal w' -> logQueue (this w') = [].
Proof.
  induction fuel as [|fuel IH]; intros w w'.
  - cbn. destruct (logQueue (this w)) eqn:Q; [|discriminate].
    intros E. injection E as <-. exact Q.
  - destruct (logQueue (this w)) as [|e rest] eqn:Q.
    + rewrite drain_empty by exact Q. intros E. injection E as <-. exact Q.
    + rewrite (drain_step fuel w e rest Q).
      destruct (forEach_log _ e _) as [w2|x w2|]; try discriminate.
      apply IH.
Qed.

Lemma accepted_cons (l : Log) (c : LogCall) (cs : list LogCall) :
  accepted l (c :: cs) =
  if permitted l c then entry_of l c :: accepted l cs else accepted l cs.
Proof. unfold accepted. cbn. destruct (permitted l c); reflexivity. Qed.

Lemma relog_enqueues (cs : list LogCall) : forall w : World,
  let w' := fold_left (fun w c => snd (perform c w)) cs w in
  logQueue (this w') = logQueue (this w) ++ accepted (this w) cs /\
  config (this w') = config (this w) /\
  calls w' = calls w.
Proof.
  induction cs as [|c cs IH]; intros w; cbn [fold_left].
  - unfold accepted. cbn. rewrite app_nil_r. repeat split.
  - destruct (IH (snd (perform c w))) as (Q & K & C).
    cbv zeta. rewrite Q, K, C, accepted_cons.
    destruct (permitted (this w) c) eqn:P.
    + destruct (perform_permitted c w P) as (C1 & _ & C3 & _ & C5 & _).
      rewrite C1, C3, C5, (accepted_config _ (this w) cs C1).
      repeat split. now rewrite <- app_assoc.
    + rewrite (perform_gated c w P). cbn [snd]. repeat split.
Qed.

Lemma spawned_config (l1 l2 : Log) (ts : list Transport) (e : QueueEntry) :
  config l1 = config l2 -> spawned l1 ts e = spawned l2 ts e.
Proof.
  intros E. unfold spawned. apply flat_map_ext. intros [|n b]; [reflexivity|].
  now apply accepted_config.
Qed.

Lemma Transport_log_enqueues (t : Transport) (e : QueueEntry) (w : World) :
  ends_with (fun w' =>
    logQueue (this w') = logQueue (this w) ++ spawned (this w) [t] e /\
    config (this w') = config (this w) /\
    calls w' = calls w ++ fanout [t] e) (Transport_log t e w).
Proof.
  destruct t as [|n b].
  - cbn. rewrite app_nil_r. repeat split.
  - unfold Transport_log. cbv zeta. set (w1 := record_call _ w).
    destruct (relog_enqueues (relog (b (level e) (message e) (meta e))) w1)
      as (Q & K & C).
    destruct (raises _); cbn; rewrite Q, K, C; cbn; rewrite app_nil_r;
      repeat split.
Qed.

Lemma forEach_log_enqueues (ts : list Transport) (e : QueueEntry) :
  forall w w' : World,
  forEach_log ts e w = Normal w' ->
  logQueue (this w') = logQueue (this w) ++ spawned (this w) ts e /\
  config (this w') = config (this w) /\
  calls w' = calls w ++ fanout ts e.
Proof.
  induction ts as [|t ts IH]; intros w w'; cbn.
  - intros E. injection E as <-. rewrite !app_nil_r. repeat split.
  - pose proof (Transport_log_enqueues t e w) as H.
    destruct (Transport_log t e w) as [w1|x w1|]; try discriminate.
    cbn in H. destruct H as (Q1 & K1 & C1). intros E.
    destruct (IH w1 w' E) as (Q & K & C).
    rewrite Q, K, C, Q1, K1, C1.
    rewrite (spawned_config (this w1) (this w) ts e K1).
    unfold spawned. cbn [flat_map fanout map]. rewrite !app_nil_r.
    fold (spawned (this w) ts e). fold (fanout ts e).
    repeat split; now rewrite <- app_assoc.
Qed.

Lemma spawned_flat_config (l1 l2 : Log) (ts : list Transport) (q : list QueueEntry) :
  config l1 = config l2 ->
  flat_map (spawned l1 ts) q = flat_map (spawned l2 ts) q.
Proof.
  intros E. apply flat_map_ext. intros e. now apply spawned_config.
Qed.

Lemma schedule_config (fuel : nat) (l1 l2 : Log) (ts : list Transport) :
  config l1 = config l2 ->
  forall q, schedule fuel l1 ts q = schedule fuel l2 ts q.
Proof.
  intros E. induction fuel as [|fuel IH]; intros [|e rest]; cbn; try reflexivity.
  now rewrite (spawned_config l1 l2 ts e E), IH.
Qed.

(** The entries a drain that returns has handed to the transports, oldest
    first, are the schedule of the queue it found: that queue followed by
    what the transports enqueued on each entry in turn. *)
Lemma drain_processes (fuel : nat) : forall w w' : World,
  drain fuel w = Normal w' ->
  let ts := transports (config (this w)) in
  let processed := schedule fuel (this w) ts (logQueue (this w)) in
  processed = logQueue (this w) ++ flat_map (spawned (this w) ts) processed /\
  calls w' = calls w ++ flat_map (fanout ts) processed /\
  config (this w') = config (this w).
Proof.
  induction fuel as [|fuel IH]; intros w w'.
  - cbn. destruct (logQueue (this w)) eqn:Q; [|discriminate].
    intros E. injection E as <-. cbn. rewrite app_nil_r. auto.
  - destruct (logQueue (this w)) as [|e rest] eqn:Q.
    + rewrite drain_empty by exact Q. intros E. injection E as <-.
      cbn. rewrite app_nil_r. auto.
    + rewrite (drain_step fuel w e rest Q).
      set (w1 := set_this (set_logQueue rest (this w)) w).
      destruct (forEach_log (transports (config (this w))) e w1) as [w2|x w2|] eqn:F;
        try discriminate.
      destruct (forEach_log_enqueues _ e w1 w2 F) as (Q2 & K2 & C2).
      intros D. destruct (IH w2 w' D) as (P & C & K).
      assert (K20 : config (this w2) = config (this w)) by (rewrite K2; reflexivity).
      rewrite (spawned_config (this w1) (this w)) in Q2 by reflexivity.
      cbn [logQueue this w1 set_this set_logQueue] in Q2.
      rewrite K20, Q2 in P, C.
      rewrite (schedule_config fuel (this w2) (this w) _ K20) in P, C.
      rewrite (spawned_flat_config (this w2) (this w)) in P by exact K20.
      cbv zeta. cbn [schedule].
      set (processed := schedule fuel (this w) (transports (config (this w)))
                          (rest ++ spawned (this w) (transports (config (this w))) e)) in *.
      split; [|split].
      * cbn [flat_map app]. rewrite P at 1. now rewrite <- app_assoc.
      * rewrite C, C2. cbn [flat_map calls w1 set_this]. now rewrite <- app_assoc.
      * rewrite K. exact K20.
Qed.

(** A drain that returns leaves the queue empty and the logger at rest, with
    its configuration untouched, even when transports log while it runs:
    the entries it has handed to the transports, each to every transport and
    oldest first, are the queue it found followed by the entries the
    transports enqueued during the drain. *)
Theorem processQueue_returns_at_rest (fuel : nat) (w w' : World) :
  isProcessing (this w) = false ->
  processQueue fuel w = Normal w' ->
  let ts := transports (config (this w)) in
  let processed := schedule fuel (this w) ts (logQueue (this w)) in
  logQueue (this w') = [] /\
  isProcessing (this w') = false /\
  config (this w') = config (this w) /\
  uncaught w' = uncaught w /\
  processed = logQueue (this w) ++ flat_map (spawned (this w) ts) processed /\
  calls w' = calls w ++ flat_map (fanout ts) processed.
Proof.
  intros P. unfold processQueue. rewrite P.
  set (w0 := set_this (set_isProcessing true (this w)) w).
  pose proof (drain_same_setup fuel w0) as S.
  destruct (drain fuel w0) as [w1|x w1|] eqn:D; try discriminate.
  intros E. injection E as <-. cbn in S. destruct S as (S1 & _ & S3).
  destruct (drain_processes fuel w0 w1 D) as (Pr & C & _).
  assert (K0 : config (this w0) = config (this w)) by reflexivity.
  change (logQueue (this w0)) with (logQueue (this w)) in Pr, C.
  change (transports (config (this w0))) with (transports (config (this w))) in Pr, C.
  rewrite (schedule_config fuel (this w0) (this w) _ K0) in Pr, C.
  rewrite (spawned_flat_config (this w0) (this w)) in Pr by exact K0.
  cbn. split; [apply (drain_normal_empty fuel w0 w1 D)|].
  split; [reflexivity|]. split; [exact S1|]. split; [exact S3|].
  split; [exact Pr | exact C].
Qed.

Lemma processQueue_returns_at_rest_witness :
  match processQueue 2 (snd (perform (say info "ping" []) (world_with [bounce 1]))) with
  | Normal w' =>
      logQueue (this w') = [] /\ isProcessing (this w') = false /\
      map inv_message (calls w') = ["ping"; "pong"]
  | _ => False
  end.
Proof.
  set (w := snd (perform (say info "ping" []) (world_with [bounce 1]))).
  destruct (processQueue 2 w) as [w'|x w'|] eqn:E.
  - destruct (processQueue_returns_at_rest 2 w w' eq_refl E)
      as (A & B & _ & _ & _ & C).
    split; [exact A|]. split; [exact B|].
    rewrite C. reflexivity.
  - vm_compute in E. discriminate.
  - vm_compute in E. discriminate.
Defined.

(** A timer that fires on an empty queue invokes nobody and changes nothing
    of the logger: the timers left over by a burst of calls are harmless. *)
Theorem tick_on_empty_queue (fuel : nat) (w : World) :
  logQueue (this w) = [] ->
  exists w',
    tick fuel w = Some w' /\
    this w' = this w /\
    timers w' = pred (timers w) /\
    calls w' = calls w /\
    console w' = console w /\
    uncaught w' = uncaught w.
Proof.
  intros Q. unfold tick. destruct (timers w) as [|n] eqn:T.
  - exists w. repeat split. exact T.
  - unfold processQueue. cbn [this].
    destruct (isProcessing (this w)) eqn:P.
    + eexists. split; [reflexivity|]. repeat split.
    + rewrite drain_empty by exact Q.
      eexists. split; [reflexivity|]. cbn. repeat split.
      destruct (this w); cbn in *. now subst.
Qed.

Lemma tick_on_empty_queue_witness :
  match run 2 [Call (say info "a" []); Call (say warn "b" []); Tick]
          (world_with [recorder 1]) with
  | Some w =>
      exists w',
        tick 0 w = Some w' /\ this w' = this w /\ timers w' = 0 /\
        calls w' = calls w
  | None => False
  end.
Proof.
  destruct (run 2 [Call (say info "a" []); Call (say warn "b" []); Tick]
              (world_with [recorder 1])) as [w|] eqn:E.
  - assert (Q : logQueue (this w) = [] /\ timers w = 1).
    { vm_compute in E. injection E as <-. split; reflexivity. }
    destruct Q as [Q T].
    destruct (tick_on_empty_queue 0 w Q) as (w' & R & A & B & C & _).
    exists w'. rewrite T in B. auto.
  - vm_compute in E. discriminate.
Defined.

(** A burst of logging calls with no turn of the event loop in between only
    fills the queue: the permitted calls are appended in call order, one
    timer is scheduled for each of them, and no transport is invoked,
    whatever the transports are. *)
Theorem burst_only_enqueues (fuel : nat) (ops : list Op) : forall w : World,
  calls_only ops ->
  exists w',
    run fuel ops w = Some w' /\
    logQueue (this w') = logQueue (this w) ++ accepted (this w) (log_calls ops) /\
    timers w' = timers w + List.length (accepted (this w) (log_calls ops)) /\
    calls w' = calls w /\
    config (this w') = config (this w) /\
    isProcessing (this w') = isProcessing (this w).
Proof.
  induction ops as [|o ops IH]; intros w H.
  - exists w. unfold accepted. cbn. rewrite app_nil_r. repeat split. lia.
  - inversion H as [|? ? Ho Hops]; subst.
    destruct o as [c| | |]; try contradiction. cbn [run step log_calls].
    destruct (permitted (this w) c) eqn:P.
    + destruct (perform_permitted c w P) as (C1 & C2 & C3 & C4 & C5 & _).
      destruct (IH (snd (perform c w)) Hops) as (w' & R & Q & T & C & K & F).
      exists w'. split; [exact R|].
      rewrite (accepted_config _ (this w) _ C1) in Q, T.
      unfold accepted at 1 2. cbn [filter]. rewrite P. cbn [map List.length].
      fold (accepted (this w) (log_calls ops)).
      rewrite Q, T, C, K, F, C1, C2, C3, C4, C5.
      repeat split; [now rewrite <- app_assoc | lia].
    + rewrite (perform_gated c w P). cbn [snd].
      destruct (IH w Hops) as (w' & R & Q & T & C & K & F).
      exists w'. split; [exact R|].
      unfold accepted. cbn [filter]. rewrite P.
      fold (accepted (this w) (log_calls ops)). auto.
Qed.

Lemma burst_only_enqueues_witness :
  exists w',
    run 0 [Call (say info "a" []); Call (say debug "b" []); Call (say error "c" [])]
        (configure (only_logLevel "info") (world_with [failing 1])) = Some w' /\
    map message (logQueue (this w')) = ["a"; "c"] /\
    timers w' = 2 /\
    calls w' = [].
Proof.
  destruct (burst_only_enqueues 0
              [Call (say info "a" []); Call (say debug "b" []); Call (say error "c" [])]
              (configure (only_logLevel "info") (world_with [failing 1])))
    as (w' & R & Q & T & C & _).
  - repeat constructor.
  - exists w'. split; [exact R|]. rewrite Q, T, C. repeat split.
Defined.

(** ** The processing flag *)

Lemma step_flag (fuel : nat) (o : Op) (w w' : World) :
  step fuel o w = Some w' ->
  List.length (uncaught w) <= List.length (uncaught w') /\
  (isProcessing (this w') = true ->
   isProcessing (this w) = true \/
   List.length (uncaught w) < List.length (uncaught w')).
Proof.
  destruct o as [c|p|t|]; cbn.
  - intros E. injection E as <-.
    destruct (perform_same_setup c w) as (_ & P & U). rewrite P, U. auto.
  - intros E. injection E as <-. cbn. auto.
  - intros E. injection E as <-. cbn. auto.
  - unfold tick. destruct (timers w) as [|n].
    + intros E. injection E as <-. auto.
    + set (w0 := {| this := this w; timers := n; calls := calls w;
                    console := console w; uncaught := uncaught w |}).
      unfold processQueue. cbn [this w0].
      destruct (isProcessing (this w)) eqn:P.
      * intros E. injection E as <-. cbn. auto.
      * set (w1 := set_this (set_isProcessing true (this w)) w0).
        pose proof (drain_same_setup fuel w1) as S.
        destruct (drain fuel w1) as [w2|x w2|]; try discriminate;
          cbn in S; destruct S as (_ & _ & U);
          intros E; injection E as <-; cbn; rewrite U;
          change (uncaught w1) with (uncaught w).
        -- split; [lia | discriminate].
        -- rewrite length_app. cbn. split; [lia | intros _; right; lia].
Qed.

(** The guard of [processQueue] only ever stops a drain after an exception
    has escaped from one: along any program, with any transports, a logger
    whose flag was clear and is now set has sent an exception to the event
    loop in between. *)
Theorem flag_set_only_by_throw (fuel : nat) (ops : list Op) : forall w w' : World,
  isProcessing (this w) = false ->
  run fuel ops w = Some w' ->
  isProcessing (this w') = true ->
  List.length (uncaught w) < List.length (uncaught w').
Proof.
  assert (G : forall (w w' : World),
             run fuel ops w = Some w' ->
             List.length (uncaught w) <= List.length (uncaught w') /\
             (isProcessing (this w') = true ->
              isProcessing (this w) = true \/
              List.length (uncaught w) < List.length (uncaught w'))).
  { induction ops as [|o ops IH]; intros w w'; cbn.
    - intros E. injection E as <-. auto.
    - destruct (step fuel o w) as [w1|] eqn:S; [|discriminate].
      intros R. destruct (step_flag fuel o w w1 S) as [L1 F1].
      destruct (IH w1 w' R) as [L2 F2].
      split; [lia|]. intros P. destruct (F2 P) as [P1|L]; [|right; lia].
      destruct (F1 P1) as [P0|L]; [left; exact P0 | right; lia]. }
  intros w w' P R P'. destruct (G w w' R) as [_ F].
  destruct (F P') as [C|L]; [congruence | exact L].
Qed.

Lemma flag_set_only_by_throw_witness :
  match run 1 [Call (say info "a" []); Tick] (world_with [failing 1]) with
  | Some w' => 0 < List.length (uncaught w')
  | None => False
  end.
Proof.
  destruct (run 1 [Call (say info "a" []); Tick] (world_with [failing 1]))
    as [w'|] eqn:E.
  - apply (flag_set_only_by_throw 1 [Call (say info "a" []); Tick]
             (world_with [failing 1]) w').
    + reflexivity.
    + exact E.
    + vm_compute in E. injection E as <-. reflexivity.
  - vm_compute in E. discriminate.
Defined.

(** ** A throw in the middle of a fan-out *)

Lemma forEach_log_app (ts1 ts2 : list Transport) (e : QueueEntry) (w : World) :
  forEach_log (ts1 ++ ts2) e w =
  match forEach_log ts1 e w with
  | Normal w' => forEach_log ts2 e w'
  | Throw x w' => Throw x w'
  | OutOfFuel => OutOfFuel
  end.
Proof.
  revert w. induction ts1 as [|t ts1 IH]; intros w; cbn; [reflexivity|].
  destruct (Transport_log t e w) as [w1|x w1|]; [apply IH | reflexivity..].
Qed.

(** When the transport after [before] throws on the entry at the front of
    the queue, the turn of the event loop that drains it takes the entry off
    the queue, hands it to [before] and to the thrower, and stops there: the
    transports registered after the thrower never see that entry, the
    entries behind it stay queued, and the exception reaches the event
    loop. *)
Theorem throw_interrupts_fanout
    (fuel : nat) (w : World) (e : QueueEntry) (rest : list QueueEntry)
    (before after : list Transport) (n : nat)
    (b : LogLevel -> string -> LogMeta -> Outcome) (x : any) :
  isProcessing (this w) = false ->
  0 < timers w ->
  logQueue (this w) = e :: rest ->
  transports (config (this w)) = before ++ CustomTransport n b :: after ->
  Forall (well_behaved (this w)) before ->
  never_enqueues (this w) (CustomTransport n b) ->
  raises (b (level e) (message e) (meta e)) = Some x ->
  exists w',
    tick (S fuel) w = Some w' /\
    logQueue (this w') = rest /\
    calls w' = calls w ++ fanout (before ++ [CustomTransport n b]) e /\
    uncaught w' = uncaught w ++ [x] /\
    config (this w') = config (this w).
Proof.
  intros P T Q Ts Hb Hq Hr. unfold tick.
  destruct (timers w) as [|m]; [lia|].
  set (w0 := {| this := this w; timers := m; calls := calls w;
                console := console w; uncaught := uncaught w |}).
  unfold processQueue. cbn [this w0]. rewrite P.
  set (w1 := set_this (set_isProcessing true (this w)) w0).
  assert (Q1 : logQueue (this w1) = e :: rest) by exact Q.
  rewrite (drain_step fuel w1 e rest Q1).
  set (w2 := set_this (set_logQueue rest (this w1)) w1).
  change (transports (config (this w1))) with (transports (config (this w))).
  rewrite Ts, forEach_log_app.
  assert (Hb2 : Forall (well_behaved (this w2)) before).
  { eapply Forall_impl; [|exact Hb]. intros t.
    apply well_behaved_config. reflexivity. }
  destruct (forEach_log_returns before e w2 Hb2) as (w3 & E3 & (K1 & K2 & K3) & C3).
  rewrite E3. cbn [forEach_log].
  assert (Hq3 : never_enqueues (this w3) (CustomTransport n b)).
  { rewrite K1. eapply never_enqueues_config; [|exact Hq]. reflexivity. }
  unfold Transport_log. cbv zeta.
  set (w4 := record_call _ w3).
  rewrite (relog_gated _ w4 (Hq3 (level e) (message e) (meta e))), Hr.
  eexists. split; [reflexivity|]. cbn.
  rewrite K1, K3, C3. cbn. repeat split.
  unfold fanout. rewrite map_app, <- app_assoc. reflexivity.
Qed.

Lemma throw_interrupts_fanout_witness :
  exists w',
    tick 1 (snd (perform (say info "b" [])
                   (snd (perform (say info "a" [])
                           (world_with [recorder 1; failing 2; recorder 3]))))) = Some w' /\
    map message (logQueue (this w')) = ["b"] /\
    map (fun i => match target i with
                  | ConsoleTransport => 0
                  | CustomTransport k _ => k
                  end) (calls w') = [1; 2] /\
    uncaught w' = [JStr "sink down"].
Proof.
  set (w := snd (perform (say info "b" [])
                   (snd (perform (say info "a" [])
                           (world_with [recorder 1; failing 2; recorder 3]))))).
  destruct (throw_interrupts_fanout 0 w (entry_of (this w) (say info "a" []))
              [entry_of (this w) (say info "b" [])]
              [recorder 1] [recorder 3] 2
              (fun _ _ _ => {| relog := []; raises := Some (JStr "sink down") |})
              (JStr "sink down"))
    as (w' & R & Q & C & U & _).
  - reflexivity.
  - vm_compute. lia.
  - reflexivity.
  - reflexivity.
  - repeat constructor.
  - intros lvl msg m. constructor.
  - reflexivity.
  - exists w'. split; [exact R|]. rewrite Q, C, U. repeat split.
Defined.

(** ** The transport list is read when the drain runs *)

Lemma permitted_call_then_tick (fuel : nat) (c : LogCall) (w : World) :
  permitted (this w) c = true ->
  idle w ->
  Forall (well_behaved (this w)) (transports (config (this w))) ->
  List.length (logQueue (this w)) < fuel ->
  exists w',
    run fuel [Call c; Tick] w = Some w' /\
    this w' = set_logQueue [] (this w) /\
    timers w' = timers w /\
    calls w' =
      calls w ++ flat_map (fanout (transports (config (this w))))
                   (logQueue (this w) ++ [entry_of (this w) c]).
Proof.
  intros P [I1 I2] Hwb Hfuel.
  destruct (perform_permitted c w P) as (C1 & C2 & C3 & C4 & C5 & _).
  set (w1 := snd (perform c w)) in *.
  assert (B1 : Forall (well_behaved (this w1)) (transports (config (this w1)))).
  { rewrite C1. eapply Forall_impl; [|exact Hwb]. intros t.
    apply well_behaved_config. now symmetry. }
  assert (L1 : List.length (logQueue (this w1)) <= fuel).
  { rewrite C3, length_app. cbn. lia. }
  assert (F1 : isProcessing (this w1) = false) by congruence.
  assert (T1 : 0 < timers w1) by lia.
  destruct (tick_returns fuel w1 F1 B1 L1 T1) as (w' & E & A & B & _ & D).
  exists w'. cbn [run step]. fold w1. rewrite E.
  split; [reflexivity|]. split.
  - rewrite A. destruct (this w1) as [cf qu fl] eqn:X, (this w) as [cf0 qu0 fl0].
    cbn in *. now subst.
  - split; [rewrite B, C4; reflexivity|].
    now rewrite D, C1, C3, C5.
Qed.

Lemma shouldLog_logLevel (h : Host) (l1 l2 : Log) (lvl : LogLevel) :
  logLevel (config l1) = logLevel (config l2) ->
  shouldLog h l1 lvl = shouldLog h l2 lvl.
Proof. unfold shouldLog. intros ->. reflexivity. Qed.

Lemma well_behaved_logLevel (l1 l2 : Log) (t : Transport) :
  logLevel (config l1) = logLevel (config l2) ->
  well_behaved l1 t -> well_behaved l2 t.
Proof.
  intros E [H1 H2]. split; [|exact H2].
  destruct t as [|k b]; cbn in *; [trivial|].
  intros lvl msg m. eapply Forall_impl; [|apply (H1 lvl msg m)].
  cbn. intros c Hc. unfold permitted in *.
  now rewrite <- (shouldLog_logLevel _ l1 l2 _ E).
Qed.

Lemma entry_of_addTransport (t : Transport) (l : Log) (c : LogCall) :
  entry_of (set_config (push_transport t (config l)) l) c = entry_of l c.
Proof. reflexivity. Qed.

(** A transport added after a call but before the drain receives the entry
    of that call: the drain uses the list of transports as it is when it
    runs. A transport added after the drain receives only later entries. *)
Theorem addTransport_is_seen_by_next_drain
    (fuel : nat) (c1 c2 : LogCall) (t : Transport) (w : World) :
  permitted (this w) c1 = true ->
  permitted (this w) c2 = true ->
  idle w ->
  logQueue (this w) = [] ->
  Forall (well_behaved (this w)) (transports (config (this w)) ++ [t]) ->
  0 < fuel ->
  (exists w',
     run fuel [Call c1; AddTransport t; Tick] w = Some w' /\
     calls w' =
       calls w ++ fanout (transports (config (this w)) ++ [t]) (entry_of (this w) c1)) /\
  (exists w',
     run fuel [Call c1; Tick; AddTransport t; Call c2; Tick] w = Some w' /\
     calls w' =
       calls w ++ fanout (transports (config (this w))) (entry_of (this w) c1)
               ++ fanout (transports (config (this w)) ++ [t]) (entry_of (this w) c2)).
Proof.
  intros P1 P2 Hidle Q Hwb Hfuel.
  assert (Hwb0 : Forall (well_behaved (this w)) (transports (config (this w)))).
  { apply Forall_app in Hwb. tauto. }
  split.
  - destruct (perform_permitted c1 w P1) as (C1 & C2 & C3 & C4 & C5 & _).
    set (w1 := snd (perform c1 w)) in *.
    set (w2 := addTransport t w1).
    assert (T2 : transports (config (this w2)) = transports (config (this w)) ++ [t])
      by (cbn; now rewrite C1).
    assert (Q2 : logQueue (this w2) = [entry_of (this w) c1])
      by (cbn; now rewrite C3, Q).
    assert (I2 : idle w2).
    { destruct Hidle as [F _]. split; [cbn; congruence | intros _; cbn; lia]. }
    assert (B2 : Forall (well_behaved (this w2)) (transports (config (this w2)))).
    { rewrite T2. eapply Forall_impl; [|exact Hwb]. intros u.
      apply well_behaved_logLevel. cbn. now rewrite C1. }
    assert (L2 : List.length (logQueue (this w2)) <= fuel)
      by (rewrite Q2; cbn; lia).
    destruct (tick_settles fuel w2 I2 B2 L2) as (w' & E & _ & D).
    exists w'. cbn [run step]. fold w1. fold w2. rewrite E.
    split; [reflexivity|]. rewrite D, T2, Q2. cbn [flat_map calls w2 addTransport set_this].
    now rewrite app_nil_r, C5.
  - assert (F : List.length (logQueue (this w)) < fuel) by (rewrite Q; cbn; lia).
    destruct (permitted_call_then_tick fuel c1 w P1 Hidle Hwb0 F)
      as (w1 & R1 & A1 & T1 & D1).
    set (w2 := addTransport t w1).
    assert (K2 : this w2 = set_config (push_transport t (config (this w)))
                             (set_logQueue [] (this w)))
      by (cbn; now rewrite A1).
    assert (P2' : permitted (this w2) c2 = true).
    { unfold permitted in *. rewrite <- P2. apply shouldLog_logLevel.
      rewrite K2. reflexivity. }
    assert (I2 : idle w2).
    { destruct Hidle as [Fl _]. split; rewrite K2; [exact Fl | cbn; congruence]. }
    assert (B2 : Forall (well_behaved (this w2)) (transports (config (this w2)))).
    { rewrite K2. cbn. eapply Forall_impl; [|exact Hwb]. intros u.
      apply well_behaved_logLevel. reflexivity. }
    assert (F2 : List.length (logQueue (this w2)) < fuel) by (rewrite K2; cbn; lia).
    destruct (permitted_call_then_tick fuel c2 w2 P2' I2 B2 F2)
      as (w3 & R3 & _ & _ & D3).
    exists w3. split.
    + change [Call c1; Tick; AddTransport t; Call c2; Tick]
        with ([Call c1; Tick] ++ AddTransport t :: [Call c2; Tick]).
      rewrite run_app, R1. exact R3.
    + rewrite D3, K2. cbn [calls w2 addTransport set_this config set_config
                           transports push_transport logQueue set_logQueue
                           app flat_map].
      rewrite D1, Q. cbn [app flat_map]. rewrite !app_nil_r.
      rewrite <- app_assoc. reflexivity.
Qed.

Lemma addTransport_is_seen_by_next_drain_witness :
  let w := world_with [recorder 1] in
  let a := say info "a" [] in
  let b := say warn "b" [] in
  (exists w',
     run 1 [Call a; AddTransport (recorder 2); Tick] w = Some w' /\
     calls w' = fanout [recorder 1; recorder 2] (entry_of (this w) a)) /\
  (exists w',
     run 1 [Call a; Tick; AddTransport (recorder 2); Call b; Tick] w = Some w' /\
     calls w' = fanout [recorder 1] (entry_of (this w) a)
                 ++ fanout [recorder 1; recorder 2] (entry_of (this w) b)).
Proof.
  intros w a b. apply (addTransport_is_seen_by_next_drain 1 a b (recorder 2) w).
  - reflexivity.
  - reflexivity.
  - split; [reflexivity | intros H; now contradiction H].
  - reflexivity.
  - repeat constructor.
  - lia.
Defined.

(** ** What reaches the console *)



Lemma printed_app (l : Log) (ts1 ts2 : list Transport) (e : QueueEntry) :
  printed l (ts1 ++ ts2) e = printed l ts1 e ++ printed l ts2 e.
Proof. unfold printed. apply flat_map_app. Qed.

Lemma Transport_log_console (t : Transport) (e : QueueEntry) (w : World) :
  well_behaved (this w) t ->
  exists w',
    Transport_log t e w = Normal w' /\
    keeps w w' /\ console w' = console w ++ printed (this w) [t] e.
Proof.
  intros [Hq Hr]. destruct t as [|n b]; cbn in *.
  - eexists. split; [reflexivity|]. repeat split.
  - unfold Transport_log. cbv zeta. set (w1 := record_call _ w).
    rewrite (relog_gated _ w1 (Hq (level e) (message e) (meta e))).
    rewrite (Hr (level e) (message e) (meta e)).
    exists w1. repeat split. cbn. now rewrite app_nil_r.
Qed.

Lemma forEach_log_console (ts : list Transport) (e : QueueEntry) : forall w : World,
  Forall (well_behaved (this w)) ts ->
  exists w',
    forEach_log ts e w = Normal w' /\
    keeps w w' /\ console w' = console w ++ printed (this w) ts e.
Proof.
  induction ts as [|t ts IH]; intros w H; cbn.
  - exists w. repeat split. now rewrite app_nil_r.
  - inversion H as [|? ? Ht Hts]; subst.
    destruct (Transport_log_console t e w Ht) as (w1 & E & K & C).
    rewrite E.
    assert (Hts' : Forall (well_behaved (this w1)) ts).
    { destruct K as (K1 & _). rewrite K1. exact Hts. }
    destruct (IH w1 Hts') as (w2 & E2 & K2 & C2).
    exists w2. split; [exact E2|]. split; [eapply keeps_trans; eauto|].
    rewrite C2, C. destruct K as (K1 & _). rewrite K1.
    unfold printed. cbn [flat_map]. now rewrite app_nil_r, <- app_assoc.
Qed.

Lemma drain_console (fuel : nat) : forall w : World,
  Forall (well_behaved (this w)) (transports (config (this w))) ->
  List.length (logQueue (this w)) <= fuel ->
  exists w',
    drain fuel w = Normal w' /\
    this w' = set_logQueue [] (this w) /\
    timers w' = timers w /\
    console w' =
      console w ++
      flat_map (printed (this w) (transports (config (this w)))) (logQueue (this w)).
Proof.
  induction fuel as [|fuel IH]; intros w Hwb Hlen.
  - destruct (logQueue (this w)) as [|e rest] eqn:Q; [|cbn in Hlen; lia].
    exists w. rewrite drain_empty by exact Q. cbn. rewrite app_nil_r.
    repeat split. destruct (this w); cbn in *. now subst.
  - destruct (logQueue (this w)) as [|e rest] eqn:Q.
    + exists w. rewrite drain_empty by exact Q. cbn. rewrite app_nil_r.
      repeat split. destruct (this w); cbn in *. now subst.
    + rewrite (drain_step fuel w e rest Q).
      set (w1 := set_this (set_logQueue rest (this w)) w).
      assert (H1 : Forall (well_behaved (this w1)) (transports (config (this w)))).
      { eapply Forall_impl; [|exact Hwb]. intros t.
        apply well_behaved_config. reflexivity. }
      destruct (forEach_log_console _ e w1 H1) as (w2 & E & (K1 & K2 & K3) & C).
      rewrite E.
      assert (H2 : Forall (well_behaved (this w2)) (transports (config (this w2))))
        by (rewrite K1; exact H1).
      assert (L2 : List.length (logQueue (this w2)) <= fuel)
        by (rewrite K1; cbn; cbn in Hlen; lia).
      destruct (IH w2 H2 L2) as (w3 & E3 & T3 & M3 & C3).
      exists w3. split; [exact E3|].
      rewrite T3, M3, C3, K1, K2, C. cbn.
      repeat split.
      rewrite <- app_assoc. reflexivity.
Qed.

Lemma tick_console (fuel : nat) (w : World) :
  idle w ->
  Forall (well_behaved (this w)) (transports (config (this w))) ->
  List.length (logQueue (this w)) <= fuel ->
  exists w',
    tick fuel w = Some w' /\
    this w' = set_logQueue [] (this w) /\
    console w' =
      console w ++
      flat_map (printed (this w) (transports (config (this w)))) (logQueue (this w)).
Proof.
  intros [I1 I2] Hwb Hlen. unfold tick.
  destruct (timers w) as [|n] eqn:T.
  - destruct (logQueue (this w)) as [|e q] eqn:Q.
    + exists w. cbn. rewrite app_nil_r. repeat split.
      destruct (this w); cbn in *. now subst.
    + exfalso. assert (0 < 0) by (apply I2; discriminate). lia.
  - set (w0 := {| this := this w; timers := n; calls := calls w;
                  console := console w; uncaught := uncaught w |}).
    unfold processQueue. cbn [this w0]. rewrite I1.
    set (w1 := set_this (set_isProcessing true (this w)) w0).
    assert (H1 : Forall (well_behaved (this w1)) (transports (config (this w1)))).
    { cbn. eapply Forall_impl; [|exact Hwb]. intros t.
      apply well_behaved_config. reflexivity. }
    destruct (drain_console fuel w1 H1 Hlen) as (w2 & E & A & _ & C).
    rewrite E. eexists. split; [reflexivity|]. cbn. rewrite A, C. cbn.
    split; [|reflexivity].
    destruct (this w); cbn in *. now subst.
Qed.















(** The colour of a console record is chosen when the drain runs, not when
    the call is made: after a call, a [configure] of [enableColors], and the
    drain, the record carries the style of the new setting, while its
    timestamp and caller information are those computed at the call. *)
Theorem colour_is_read_at_drain (fuel : nat) (c : LogCall) (b : bool) (w : World) :
  permitted (this w) c = true ->
  idle w ->
  logQueue (this w) = [] ->
  transports (config (this w)) = [ConsoleTransport] ->
  0 < fuel ->
  exists w',
    run fuel [Call c; Configure (only_enableColors b); Tick] w = Some w' /\
    console w' =
      console w ++ snd (getCallerInfo (this w) (call_host c)) ++
      [ConsoleLog
         ("%c" +++ toUpperCase (LogLevel_name (call_level c)) +++ "%c ["
            +++ getTimestamp (this w) (call_host c) +++ "] ["
            +++ fst (getCallerInfo (this w) (call_host c)) +++ "]:"
            +++ nl +++ nl +++ call_message c)
         (if b then colorStyles (call_level c) else "")
         "color: default;"
         (call_params c)].
Proof.
  intros P [I1 I2] Q Ts Hfuel.
  destruct (log_method_chainable (call_level c) (call_host c) (call_message c)
              (call_params c) w)
    as (_ & _ & _ & C1 & C2 & [[G _] | (_ & C3 & C4 & C5)]).
  { destruct c; cbn in *. congruence. }
  cbn [run step]. rewrite perform_log_method.
  set (w1 := snd (log_method (call_level c) (call_host c) (call_message c)
                    (call_params c) w)) in *.
  set (w2 := configure (only_enableColors b) w1).
  assert (T2 : transports (config (this w2)) = [ConsoleTransport])
    by (cbn; now rewrite C1).
  assert (J2 : idle w2) by (split; [cbn; congruence | intros _; cbn; lia]).
  assert (B2 : Forall (well_behaved (this w2)) (transports (config (this w2)))).
  { rewrite T2. repeat constructor. }
  assert (L2 : List.length (logQueue (this w2)) <= fuel).
  { cbn. rewrite C3, Q. cbn. lia. }
  destruct (tick_console fuel w2 J2 B2 L2) as (w' & E & _ & D).
  exists w'. rewrite E. split; [reflexivity|].
  rewrite D, T2. cbn [console w2 configure set_this logQueue this set_config].
  rewrite C5, C3, Q. destruct c as [lvl h msg params]. cbn.
  now rewrite <- app_assoc.
Qed.

Lemma colour_is_read_at_drain_witness :
  exists w',
    run 1 [Call (say warn "plain" []); Configure (only_enableColors false); Tick]
        (boot None) = Some w' /\
    console w' =
      [ConsoleLog
         ("%cWARN%c [3/15/2024, 2:30:45 PM] [Log.info (/app/src/log.ts:167)]:"
            +++ nl +++ nl +++ "plain")
         "" "color: default;" []].
Proof.
  destruct (colour_is_read_at_drain 1 (say warn "plain" []) false (boot None))
    as (w' & R & C).
  - reflexivity.
  - split; [reflexivity | intros H; now contradiction H].
  - reflexivity.
  - reflexivity.
  - lia.
  - exists w'. split; [exact R|]. rewrite C. reflexivity.
Defined.

(** ** Markers for disabled metadata *)

(** While timestamps are switched off, a permitted call queues an entry
    stamped "timestamp disabled" whatever the clock says; once they are
    switched on again, the entry carries the rendering of the clock that the
    configuration selected before. While caller information is switched
    off, the stack is not read: the entry says "caller info disabled" and
    nothing is written to the console even when the capture would fail. *)
Theorem disabled_metadata_markers (c : LogCall) (w : World) :
  permitted (this w) c = true ->
  let off := configure (only_enableTimestamps false) w in
  let on := configure (only_enableTimestamps true) off in
  let silent :=
    configure {| p_logLevel := None; p_enableTimestamps := None;
                 p_enableCallerInfo := Some false; p_enableColors := None;
                 p_transports := None; p_humanReadableTimestamp := None |} w in
  map (fun q => timestamp (meta q)) (logQueue (this (snd (perform c off)))) =
    map (fun q => timestamp (meta q)) (logQueue (this w)) ++ ["timestamp disabled"] /\
  map (fun q => timestamp (meta q)) (logQueue (this (snd (perform c on)))) =
    map (fun q => timestamp (meta q)) (logQueue (this w)) ++
      [if humanReadableTimestamp (config (this w))
       then toLocaleString (now (call_host c))
       else toISOString (now (call_host c))] /\
  map (fun q => callerInfo (meta q)) (logQueue (this (snd (perform c silent)))) =
    map (fun q => callerInfo (meta q)) (logQueue (this w)) ++ ["caller info disabled"] /\
  console (snd (perform c silent)) = console w.
Proof.
  intros P off on silent.
  assert (S : forall p, p_logLevel p = None ->
            permitted (this (configure p w)) c = true).
  { intros p E. rewrite <- P. unfold permitted. apply shouldLog_logLevel.
    cbn. now rewrite E. }
  assert (Poff : permitted (this off) c = true) by (apply S; reflexivity).
  assert (Pon : permitted (this on) c = true).
  { rewrite <- Poff. unfold permitted. apply shouldLog_logLevel. reflexivity. }
  assert (Ps : permitted (this silent) c = true) by (apply S; reflexivity).
  destruct (perform_permitted c off Poff) as (_ & _ & Qoff & _).
  destruct (perform_permitted c on Pon) as (_ & _ & Qon & _).
  destruct (perform_permitted c silent Ps) as (_ & _ & Qs & _).
  rewrite Qoff, Qon, Qs, !map_app. cbn [map].
  split; [reflexivity|]. split; [|split; [reflexivity|]].
  - unfold entry_of, getTimestamp. cbn.
    destruct (humanReadableTimestamp (config (this w))); reflexivity.
  - rewrite perform_log_method. unfold log_method.
    unfold permitted in Ps. rewrite Ps. cbn [snd].
    unfold enqueueLog, getCallerInfo. cbn. now rewrite app_nil_r.
Qed.

Lemma disabled_metadata_markers_witness :
  let c := {| call_level := info; call_host := broken_stack_host;
              call_message := "m"; call_params := [] |} in
  let w := boot None in
  map (fun q => timestamp (meta q))
    (logQueue (this (snd (perform c (configure (only_enableTimestamps false) w))))) =
    ["timestamp disabled"] /\
  console (snd (perform c
     (configure {| p_logLevel := None; p_enableTimestamps := None;
                   p_enableCallerInfo := Some false; p_enableColors := None;
                   p_transports := None; p_humanReadableTimestamp := None |} w))) = [].
Proof.
  intros c w.
  destruct (disabled_metadata_markers c w eq_refl) as (A & _ & _ & D).
  split; [exact A | exact D].
Defined.

(** ** Which line of the stack is read *)

Lemma list_ascii_of_string_append (a b : string) :
  list_ascii_of_string (a +++ b) = list_ascii_of_string a ++ list_ascii_of_string b.
Proof. induction a as [|c a IH]; cbn; [reflexivity | now rewrite IH]. Qed.

Lemma append_empty (a : string) : a +++ "" = a.
Proof. induction a as [|c a IH]; cbn; [reflexivity | now rewrite IH]. Qed.

Lemma split_lines_last (a cur : list ascii) :
  ~ In newline a -> split_lines a cur = [rev cur ++ a].
Proof.
  revert cur. induction a as [|c a IH]; intros cur N; cbn [split_lines].
  - now rewrite app_nil_r.
  - destruct (Ascii.eqb_spec c newline) as [E|_].
    + exfalso. apply N. left. now symmetry.
    + rewrite IH by (intros H; apply N; right; exact H).
      cbn [rev]. now rewrite <- app_assoc.
Qed.

Lemma split_lines_first (a b cur : list ascii) :
  ~ In newline a ->
  split_lines (a ++ newline :: b) cur = (rev cur ++ a) :: split_lines b [].
Proof.
  revert cur. induction a as [|c a IH]; intros cur N; cbn [split_lines app].
  - rewrite Ascii.eqb_refl. now rewrite app_nil_r.
  - destruct (Ascii.eqb_spec c newline) as [E|_].
    + exfalso. apply N. left. now symmetry.
    + rewrite IH by (intros H; apply N; right; exact H).
      cbn [rev]. now rewrite <- app_assoc.
Qed.

Lemma split_newline_last (a : string) :
  one_line a -> split_newline a = [a].
Proof.
  intros N. unfold split_newline. rewrite (split_lines_last _ [] N). cbn.
  now rewrite string_of_list_ascii_of_string.
Qed.

Lemma split_newline_first (a b : string) :
  one_line a -> split_newline (a +++ nl +++ b) = a :: split_newline b.
Proof.
  intros N. unfold split_newline.
  rewrite list_ascii_of_string_append. cbn [nl append list_ascii_of_string].
  rewrite (split_lines_first _ _ [] N). cbn.
  now rewrite string_of_list_ascii_of_string.
Qed.

(** The line [getCallerInfo] reads is the fourth line of the stack text,
    counting the first line whatever it holds: in a stack that opens with a
    header line, it is the third frame, and the frames below it, where the
    application called the logger, are not looked at. *)
Theorem caller_info_reads_fourth_line
    (l0 l1 l2 l3 : string) (below : option string) (l : Log) (h : Host) :
  one_line l0 -> one_line l1 -> one_line l2 -> one_line l3 ->
  enableCallerInfo (config l) = true ->
  errorStack h =
    StackText (l0 +++ nl +++ l1 +++ nl +++ l2 +++ nl +++ l3
                 +++ match below with
                     | Some frames => nl +++ frames
                     | None => ""
                     end) ->
  getCallerInfo l h =
    (match describe_frame l3 with
     | Some described => described
     | None => "unknown"
     end, []).
Proof.
  intros N0 N1 N2 N3 En S. unfold getCallerInfo. rewrite En, S. cbn [negb].
  rewrite getCallerInfo_try_line. unfold caller_line.
  rewrite !split_newline_first by assumption.
  assert (L : exists rest,
             split_newline (l3 +++ match below with
                                   | Some frames => nl +++ frames
                                   | None => ""
                                   end) = l3 :: rest).
  { destruct below as [frames|].
    - eexists. apply split_newline_first. exact N3.
    - exists []. rewrite append_empty. apply split_newline_last. exact N3. }
  destruct L as [rest ->]. cbn [nth_error].
  destruct (describe_frame l3); reflexivity.
Qed.

Lemma caller_info_reads_fourth_line_witness :
  getCallerInfo (this (boot None))
    (host_with_stack
       (StackText ("Error" +++ nl
                   +++ "    at Log.getCallerInfo (/app/src/log.ts:94:21)" +++ nl
                   +++ "    at Log.enqueueLog (/app/src/log.ts:132:24)" +++ nl
                   +++ "    at Log.warn (/app/src/log.ts:174:12)"
                   +++ nl +++ "    at checkout (/app/src/cart.ts:41:5)"))) =
    ("Log.warn (/app/src/log.ts:174)", []).
Proof.
  apply (caller_info_reads_fourth_line
           "Error"
           "    at Log.getCallerInfo (/app/src/log.ts:94:21)"
           "    at Log.enqueueLog (/app/src/log.ts:132:24)"
           "    at Log.warn (/app/src/log.ts:174:12)"
           (Some "    at checkout (/app/src/cart.ts:41:5)")).
  - unfold one_line. cbn. intuition discriminate.
  - unfold one_line. cbn. intuition discriminate.
  - unfold one_line. cbn. intuition discriminate.
  - unfold one_line. cbn. intuition discriminate.
  - reflexivity.
  - reflexivity.
Defined.

(** ** The shape of a caller description *)

Lemma matchHere_one (k : CharClass) (r : list Node) (s o : list ascii)
    (caps m : list (list ascii)) :
  matchHere (One k :: r) s o caps = Some m ->
  exists c s', s = c :: s' /\ accepts k c = true /\ matchHere r s' o caps = Some m.
Proof.
  cbn. destruct s as [|c s']; [discriminate|].
  destruct (accepts k c) eqn:A; [|discriminate].
  intros H. exists c, s'. auto.
Qed.

Lemma matchHere_star_cons (k : CharClass) (r : list Node) (c : ascii)
    (s o : list ascii) (caps : list (list ascii)) :
  matchHere (Star k :: r) (c :: s) o caps =
  if accepts k c then
    match matchHere (Star k :: r) s o caps with
    | Some m => Some m
    | None => matchHere r (c :: s) o caps
    end
  else matchHere r (c :: s) o caps.
Proof. reflexivity. Qed.

Lemma matchHere_star (k : CharClass) (r : list Node) (o : list ascii)
    (caps m : list (list ascii)) : forall s : list ascii,
  matchHere (Star k :: r) s o caps = Some m ->
  exists taken left,
    s = taken ++ left /\ forallb (accepts k) taken = true /\
    matchHere r left o caps = Some m.
Proof.
  induction s as [|c s IH].
  - cbn. intros H. exists [], []. auto.
  - rewrite matchHere_star_cons.
    destruct (accepts k c) eqn:A.
    + destruct (matchHere (Star k :: r) s o caps) as [m'|] eqn:E.
      * intros H. injection H as ->.
        destruct (IH eq_refl) as (taken & left & -> & F & M).
        exists (c :: taken), left. cbn. rewrite A, F. auto.
      * intros H. exists [], (c :: s). auto.
    + intros H. exists [], (c :: s). auto.
Qed.

Lemma firstn_taken {A : Type} (taken left : list A) :
  firstn (List.length (taken ++ left) - List.length left) (taken ++ left) = taken.
Proof.
  rewrite length_app.
  replace (List.length taken + List.length left - List.length left)
    with (List.length taken + 0) by lia.
  rewrite firstn_app_2. cbn. apply app_nil_r.
Qed.

(** A group around a starred class captures the characters the star took. *)
Lemma matchHere_group_star (k : CharClass) (r : list Node) (s o : list ascii)
    (caps m : list (list ascii)) :
  matchHere (Open :: Star k :: Close :: r) s o caps = Some m ->
  exists g left,
    s = g ++ left /\ forallb (accepts k) g = true /\
    matchHere r left s (g :: caps) = Some m.
Proof.
  change (matchHere (Open :: Star k :: Close :: r) s o caps)
    with (matchHere (Star k :: Close :: r) s s caps).
  intros H. destruct (matchHere_star _ _ _ _ _ _ H) as (g & left & E & F & M).
  exists g, left. split; [exact E|]. split; [exact F|].
  cbn [matchHere] in M. subst s. rewrite firstn_taken in M. exact M.
Qed.

(** A group around [x+] captures a non-empty run of the class. *)
Lemma matchHere_group_plus (k : CharClass) (r : list Node) (s o : list ascii)
    (caps m : list (list ascii)) :
  matchHere (Open :: One k :: Star k :: Close :: r) s o caps = Some m ->
  exists g left,
    s = g ++ left /\ g <> [] /\ forallb (accepts k) g = true /\
    matchHere r left s (g :: caps) = Some m.
Proof.
  change (matchHere (Open :: One k :: Star k :: Close :: r) s o caps)
    with (matchHere (One k :: Star k :: Close :: r) s s caps).
  intros H. destruct (matchHere_one _ _ _ _ _ _ H) as (c & s' & E & A & H1).
  destruct (matchHere_star _ _ _ _ _ _ H1) as (g & left & E1 & F & M).
  exists (c :: g), left. subst s s'. split; [reflexivity|].
  split; [discriminate|]. split; [cbn; now rewrite A, F|].
  cbn [matchHere] in M.
  change (c :: g ++ left) with ((c :: g) ++ left) in M.
  rewrite firstn_taken in M. exact M.
Qed.

Lemma search_found (r : list Node) (m : list (list ascii)) : forall s : list ascii,
  search r s = Some m ->
  exists skipped from, s = skipped ++ from /\ matchHere r from from [] = Some m.
Proof.
  induction s as [|c s IH]; cbn.
  - destruct (matchHere r [] [] []) eqn:E; [|discriminate].
    intros H. injection H as ->. exists [], []. auto.
  - destruct (matchHere r (c :: s) (c :: s) []) eqn:E.
    + intros H. injection H as ->. exists [], (c :: s). auto.
    + intros H. destruct (IH H) as (skipped & from & -> & M).
      exists (c :: skipped), from. auto.
Qed.

Lemma all_digits_run (g : list ascii) :
  g <> [] -> forallb (accepts Digit) g = true ->
  all_digits (string_of_list_ascii g) = true.
Proof.
  intros N F. unfold all_digits. rewrite list_ascii_of_string_of_list_ascii.
  destruct g; [contradiction | exact F].
Qed.

Ltac peel H :=
  repeat match type of H with
         | matchHere (One _ :: _) _ _ _ = Some _ =>
             let c := fresh "c" in let s := fresh "s" in
             let E := fresh "E" in let A := fresh "A" in let M := fresh "M" in
             destruct (matchHere_one _ _ _ _ _ _ H) as (c & s & E & A & M);
             clear H; rename M into H
         | matchHere (Star _ :: _) _ _ _ = Some _ =>
             let t := fresh "t" in let s := fresh "s" in
             let E := fresh "E" in let F := fresh "F" in let M := fresh "M" in
             destruct (matchHere_star _ _ _ _ _ _ H) as (t & s & E & F & M);
             clear H; rename M into H
         end.

(** The groups of the first pattern: a name, a path, a line and a column,
    the last two being runs of digits. *)
Lemma named_frame_groups (line : string) (m : list string) :
  String_match line re_named_frame = Some m ->
  exists name path num col,
    m = [name; path; num; col] /\ all_digits num = true /\ all_digits col = true.
Proof.
  unfold String_match.
  destruct (search re_named_frame (list_ascii_of_string line)) as [gs|] eqn:S;
    [|discriminate].
  cbn [option_map]. intros H. injection H as <-.
  destruct (search_found _ _ _ S) as (skipped & from & _ & M). clear S.
  unfold re_named_frame, lit, plus, group in M. cbn [map app list_ascii_of_string] in M.
  peel M.
  destruct (matchHere_group_star _ _ _ _ _ _ M) as (g1 & ? & _ & _ & M1). clear M.
  peel M1.
  destruct (matchHere_group_star _ _ _ _ _ _ M1) as (g2 & ? & _ & _ & M2). clear M1.
  peel M2.
  destruct (matchHere_group_plus _ _ _ _ _ _ M2) as (g3 & ? & _ & N3 & F3 & M3). clear M2.
  peel M3.
  destruct (matchHere_group_plus _ _ _ _ _ _ M3) as (g4 & ? & _ & N4 & F4 & M4). clear M3.
  peel M4.
  cbn in M4. injection M4 as <-.
  eexists _, _, _, _. split; [reflexivity|].
  split; now apply all_digits_run.
Qed.

(** The groups of the second pattern: what stands before the first of two
    trailing numbers, then the two numbers. *)
Lemma bare_frame_groups (line : string) (m : list string) :
  String_match line re_bare_frame = Some m ->
  exists name num col,
    m = [name; num; col] /\ all_digits num = true /\ all_digits col = true.
Proof.
  unfold String_match.
  destruct (search re_bare_frame (list_ascii_of_string line)) as [gs|] eqn:S;
    [|discriminate].
  cbn [option_map]. intros H. injection H as <-.
  destruct (search_found _ _ _ S) as (skipped & from & _ & M). clear S.
  unfold re_bare_frame, lit, plus, group in M. cbn [map app list_ascii_of_string] in M.
  peel M.
  destruct (matchHere_group_star _ _ _ _ _ _ M) as (g1 & ? & _ & _ & M1). clear M.
  peel M1.
  destruct (matchHere_group_plus _ _ _ _ _ _ M1) as (g2 & ? & _ & N2 & F2 & M2). clear M1.
  peel M2.
  destruct (matchHere_group_plus _ _ _ _ _ _ M2) as (g3 & ? & _ & N3 & F3 & M3). clear M2.
  cbn in M3. injection M3 as <-.
  eexists _, _, _. split; [reflexivity|].
  split; now apply all_digits_run.
Qed.

Lemma drop_spaces_split (cs : list ascii) :
  exists before,
    cs = before ++ drop_spaces cs /\
    forallb is_space before = true /\
    match drop_spaces cs with
    | [] => True
    | c :: _ => is_space c = false
    end.
Proof.
  induction cs as [|c cs (before & E & F & H)]; cbn.
  - exists []. auto.
  - destruct (is_space c) eqn:S.
    + exists (c :: before). cbn. rewrite S, F. split; [now rewrite <- E | auto].
    + exists []. auto.
Qed.

Lemma forallb_rev {A : Type} (f : A -> bool) (l : list A) :
  forallb f l = true -> forallb f (rev l) = true.
Proof.
  rewrite !forallb_forall. intros H x Hx. apply H. now apply in_rev.
Qed.

(** [trim] removes white space at the two ends and nothing else. *)
Lemma trim_stripped (s : string) : stripped s (trim s).
Proof.
  unfold stripped, trim. rewrite list_ascii_of_string_of_list_ascii.
  destruct (drop_spaces_split (list_ascii_of_string s)) as (before & E1 & F1 & H1).
  set (l1 := drop_spaces (list_ascii_of_string s)) in *.
  destruct (drop_spaces_split (rev l1)) as (tail & E2 & F2 & H2).
  set (r := drop_spaces (rev l1)) in *.
  assert (L1 : l1 = rev r ++ rev tail).
  { rewrite <- (rev_involutive l1), E2, rev_app_distr. reflexivity. }
  exists before, (rev tail). split; [|split; [exact F1|split; [now apply forallb_rev|]]].
  - rewrite E1 at 1. now rewrite L1.
  - destruct r as [|c t]; [reflexivity|]. cbn [rev].
    destruct (rev t) as [|x xs] eqn:T; cbn [app outer_clean].
    + cbn. now rewrite H2.
    + assert (X : is_space x = false).
      { rewrite L1 in H1. cbn [rev] in H1. rewrite T in H1. exact H1. }
      rewrite X. cbn [negb andb].
      change (x :: xs ++ [c]) with ((x :: xs) ++ [c]).
      rewrite last_last. now rewrite H2.
Qed.

Lemma describe_frame_shape (line described : string) :
  describe_frame line = Some described ->
  exists (m : list string) (name : string),
    (String_match line re_named_frame = Some m \/
     String_match line re_named_frame = None /\
     String_match line re_bare_frame = Some m) /\
    stripped (grp m 1) name /\
    described = name +++ " (" +++ grp m 2 +++ ":" +++ grp m 3 +++ ")" /\
    all_digits (grp m 3) = true /\
    (String_match line re_named_frame = None -> all_digits (grp m 2) = true).
Proof.
  unfold describe_frame.
  destruct (String_match line re_named_frame) as [m|] eqn:N.
  - destruct (named_frame_groups line m N) as (name & path & num & col & -> & D & _).
    intros H. injection H as <-. exists [name; path; num; col], (trim name).
    split; [left; reflexivity|]. split; [apply trim_stripped|].
    split; [reflexivity|]. split; [exact D | discriminate].
  - destruct (String_match line re_bare_frame) as [m|] eqn:B; [|discriminate].
    destruct (bare_frame_groups line m B) as (name & num & col & -> & D1 & D2).
    intros H. injection H as <-. exists [name; num; col], (trim name).
    split; [right; split; reflexivity|]. split; [apply trim_stripped|].
    split; [reflexivity|]. split; [exact D2 | intros _; exact D1].
Qed.

(** [getCallerInfo] does exactly one of four things. With caller
    information disabled it returns "caller info disabled" and writes
    nothing. When the stack capture throws it returns "unknown" and writes
    the exception with [console.error]. When the capture does not throw and
    the fourth line of the stack is absent or matches neither pattern, it
    returns "unknown" and writes nothing. Otherwise it writes nothing and
    returns [name (part:num)] built from the groups of the match on the
    fourth line: [name] is the first group without the white space at its
    two ends, [part] and [num] are the second and third groups, and [num] is
    a non-empty run of digits. When only the second pattern matched, [part]
    is a run of digits too: the line number stands where the file path is
    expected and the column where the line number is. *)
Theorem caller_info_shape (l : Log) (h : Host) :
  (enableCallerInfo (config l) = false /\
   getCallerInfo l h = ("caller info disabled", [])) \/
  (enableCallerInfo (config l) = true /\
   exists e, errorStack h = StackFaulty e /\
             getCallerInfo l h =
               ("unknown", [ConsoleError "Error getting caller info" e])) \/
  (enableCallerInfo (config l) = true /\
   (forall e, errorStack h <> StackFaulty e) /\
   (forall text line, errorStack h = StackText text ->
                      caller_line text = Some line ->
                      describe_frame line = None) /\
   getCallerInfo l h = ("unknown", [])) \/
  (enableCallerInfo (config l) = true /\
   exists (text line : string) (m : list string) (name : string),
     errorStack h = StackText text /\
     caller_line text = Some line /\
     (String_match line re_named_frame = Some m \/
      String_match line re_named_frame = None /\
      String_match line re_bare_frame = Some m) /\
     stripped (grp m 1) name /\
     getCallerInfo l h =
       (name +++ " (" +++ grp m 2 +++ ":" +++ grp m 3 +++ ")", []) /\
     all_digits (grp m 3) = true /\
     (String_match line re_named_frame = None -> all_digits (grp m 2) = true)).
Proof.
  unfold getCallerInfo.
  destruct (enableCallerInfo (config l)) eqn:En; cbn [negb]; [|left; auto].
  right. destruct (errorStack h) as [|text|e] eqn:S.
  - right. left. split; [reflexivity|]. split; [discriminate|].
    split; [discriminate | reflexivity].
  - rewrite getCallerInfo_try_line.
    destruct (caller_line text) as [line|] eqn:L.
    + destruct (describe_frame line) as [d|] eqn:D.
      * destruct (describe_frame_shape line d D) as (m & name & M & T & -> & A & B).
        right. right. split; [reflexivity|].
        exists text, line, m, name. auto 10.
      * right. left. split; [reflexivity|]. split; [discriminate|].
        split; [|reflexivity].
        intros text' line' E' L'. injection E' as <-. congruence.
    + right. left. split; [reflexivity|]. split; [discriminate|].
      split; [|reflexivity].
      intros text' line' E' L'. injection E' as <-. congruence.
  - left. split; [reflexivity|]. exists e. auto.
Qed.

(** On a frame without a function name the description puts the line number
    in the place of the path. *)
Example bare_frame_sample :
  getCallerInfo (this (boot None))
    (host_with_stack
       (StackText ("Error" +++ nl +++ "    at a (/x.ts:1:1)" +++ nl
                   +++ "    at b (/x.ts:2:2)" +++ nl
                   +++ "    at /app/src/main.ts:7:3"))) =
    ("/app/src/main.ts (7:3)", []).
Proof. reflexivity. Qed.

Lemma caller_info_shape_witness :
  exists (m : list string) (name : string),
    stripped (grp m 1) name /\
    getCallerInfo (this (boot None)) dev_host =
      (name +++ " (" +++ grp m 2 +++ ":" +++ grp m 3 +++ ")", []) /\
    all_digits (grp m 3) = true.
Proof.
  destruct (caller_info_shape (this (boot None)) dev_host)
    as [[A _] | [(_ & e & S & _) | [(_ & _ & _ & A)
         | (_ & text & line & m & name & _ & _ & _ & T & G & D & _)]]].
  - discriminate.
  - discriminate.
  - vm_compute in A. discriminate.
  - exists m, name. auto.
Defined.

(** ** No entry is left without a drain *)

Lemma run_uncaught_grows (fuel : nat) (ops : list Op) : forall w w' : World,
  run fuel ops w = Some w' ->
  List.length (uncaught w) <= List.length (uncaught w').
Proof.
  induction ops as [|o ops IH]; intros w w'; cbn.
  - intros E. injection E as <-. lia.
  - destruct (step fuel o w) as [w1|] eqn:S; [|discriminate].
    intros R. destruct (step_flag fuel o w w1 S) as [L _].
    specialize (IH w1 w' R). lia.
Qed.

Lemma processQueue_normal_rest (fuel : nat) (w w' : World) :
  isProcessing (this w) = false ->
  processQueue fuel w = Normal w' ->
  logQueue (this w') = [] /\ isProcessing (this w') = false.
Proof.
  intros P. unfold processQueue. rewrite P.
  destruct (drain fuel _) as [w1|x w1|] eqn:D; try discriminate.
  intros E. injection E as <-. cbn. split; [|reflexivity].
  apply (drain_normal_empty fuel _ w1 D).
Qed.

Lemma step_keeps_idle (fuel : nat) (o : Op) (w w' : World) :
  step fuel o w = Some w' ->
  idle w ->
  List.length (uncaught w') = List.length (uncaught w) ->
  idle w'.
Proof.
  intros S [I1 I2] U. destruct o as [c|p|t|]; cbn in S.
  - injection S as <-. rewrite perform_log_method.
    destruct (log_method_chainable (call_level c) (call_host c) (call_message c)
                (call_params c) w) as (_ & _ & _ & _ & F & [[_ E] | (_ & Q & T & _)]).
    + rewrite E. split; assumption.
    + split; [congruence | intros _; lia].
  - injection S as <-. split; assumption.
  - injection S as <-. split; assumption.
  - unfold tick in S. destruct (timers w) as [|n] eqn:T.
    + injection S as <-. split; [exact I1 | rewrite T; exact I2].
    + set (w0 := {| this := this w; timers := n; calls := calls w;
                    console := console w; uncaught := uncaught w |}) in S.
      destruct (processQueue fuel w0) as [w1|x w1|] eqn:P; try discriminate.
      * injection S as <-.
        destruct (processQueue_normal_rest fuel w0 w1 I1 P) as (Q & F).
        split; [exact F | rewrite Q; congruence].
      * injection S as <-. exfalso.
        unfold processQueue in P. cbn [this w0] in P. rewrite I1 in P.
        pose proof (drain_same_setup fuel
                      (set_this (set_isProcessing true (this w)) w0)) as D.
        destruct (drain fuel _) as [w2|y w2|]; try discriminate.
        injection P as _ <-. cbn in D. destruct D as (_ & _ & D).
        cbn in U. rewrite length_app, D in U. cbn in U. lia.
Qed.

(** As long as no exception has escaped from a drain, every queued entry has
    a timer pending and the processing flag is clear between the steps of a
    program, whatever the program and the transports do: a permitted call is
    never left in the queue without a drain to come. *)
Theorem no_entry_stranded (fuel : nat) (ops : list Op) : forall w w' : World,
  idle w ->
  run fuel ops w = Some w' ->
  List.length (uncaught w') = List.length (uncaught w) ->
  idle w'.
Proof.
  induction ops as [|o ops IH]; intros w w' I; cbn.
  - intros E _. injection E as <-. exact I.
  - destruct (step fuel o w) as [w1|] eqn:S; [|discriminate].
    intros R U.
    pose proof (run_uncaught_grows fuel ops w1 w' R) as G.
    destruct (step_flag fuel o w w1 S) as [L _].
    assert (U1 : List.length (uncaught w1) = List.length (uncaught w)) by lia.
    apply (IH w1 w'); [| exact R | lia].
    exact (step_keeps_idle fuel o w w1 S I U1).
Qed.

Lemma no_entry_stranded_witness :
  match run 2 [Call (say info "ping" []); Tick; Call (say warn "late" []);
               AddTransport (recorder 2)]
          (world_with [bounce 1]) with
  | Some w' => idle w' /\ map message (logQueue (this w')) = ["late"]
  | None => False
  end.
Proof.
  destruct (run 2 [Call (say info "ping" []); Tick; Call (say warn "late" []);
                   AddTransport (recorder 2)]
              (world_with [bounce 1])) as [w'|] eqn:E.
  - split.
    + apply (no_entry_stranded 2 _ (world_with [bounce 1]) w'
               (conj eq_refl (fun H => False_ind _ (H eq_refl))) E).
      vm_compute in E. injection E as <-. reflexivity.
    + vm_compute in E. injection E as <-. reflexivity.
  - vm_compute in E. discriminate.
Defined.
